(** * SanamLuang: the correction-rule engine and its rule store

    A shallow embedding of [globalPlugins/SanamLuang/__init__.py]:
    the rule store [SanamLuangConfig] (add / update / remove / reset, load
    and save) and the two correction paths of [GlobalPlugin]
    ([_process_text_hook] and [_apply_corrections]).

    Python values are modelled as follows.
    - A [str] is the list of its code points ([len] counts code points).
    - An entry is a [dict] with the three keys ["value"], ["is_regex"] and
      ["replacement"]; each key may be absent (the code reads them with
      [.get] in the engine and with [d[...]] in the store, which raises
      [KeyError] on an absent key).  Values carry the types the add-on
      itself writes: [str], [bool], [str].
    - An exception is a value of [exn]; a call that may raise returns
      [res].
    - Python's [re.sub] and [str.lower] belong to the standard library and
      are Section variables. *)

From Stdlib Require Import String Ascii.
From Stdlib Require Import List NArith Arith Bool Lia Sorted Permutation.
Import ListNotations.

(** ** Python strings *)

Definition char := N.
Definition pystr := list char.

(** An ASCII literal as a Python string. *)
Definition lit (s : String.string) : pystr :=
  map N_of_ascii (String.list_ascii_of_string s).

Fixpoint str_eqb (a b : pystr) : bool :=
  match a, b with
  | [], [] => true
  | x :: a', y :: b' => N.eqb x y && str_eqb a' b'
  | _, _ => false
  end.

(** [t.startswith(old)] *)
Fixpoint starts_with (t old : pystr) {struct old} : bool :=
  match old with
  | [] => true
  | o :: old' =>
      match t with
      | [] => false
      | c :: t' => N.eqb o c && starts_with t' old'
      end
  end.

(** [old in t] *)
Fixpoint occurs (old t : pystr) : bool :=
  starts_with t old ||
  match t with
  | [] => false
  | _ :: t' => occurs old t'
  end.

(** The scan of [str.replace] for a non-empty [old]: left to right, the
    leftmost occurrence is replaced and the scan resumes after it ([skip]
    counts the characters of the occurrence still to be passed over). *)
Fixpoint replace_from (old new : pystr) (skip : nat) (t : pystr) : pystr :=
  match t with
  | [] => []
  | c :: t' =>
      match skip with
      | S k => replace_from old new k t'
      | O =>
          if starts_with t old
          then new ++ replace_from old new (length old - 1) t'
          else c :: replace_from old new 0 t'
      end
  end.

(** [text.replace(old, new)].  With an empty [old] Python puts [new]
    before every character and at the end. *)
Definition str_replace (text old new : pystr) : pystr :=
  match old with
  | [] => new ++ flat_map (fun c => c :: new) text
  | _ :: _ => replace_from old new 0 text
  end.

(** ** Exceptions *)

Inductive exn : Type :=
| KeyError
| ValueError
| re_error        (* re.error *)
| OverflowError
| IndexError
| OSError.

Inductive res (A : Type) : Type :=
| Ret (a : A)
| Raise (e : exn).
Arguments Ret {A} a.
Arguments Raise {A} e.

Definition bind {A B} (m : res A) (k : A -> res B) : res B :=
  match m with
  | Ret a => k a
  | Raise e => Raise e
  end.

Declare Scope res_scope.
Delimit Scope res_scope with res.
Notation "x <- m ;; k" := (bind m (fun x => k))
  (at level 61, m at next level, right associativity) : res_scope.

(** ** Entries *)

Record entry : Type := mkEntry {
  value : option pystr;          (* WORD_VALUE       = "value"       *)
  is_regex : option bool;        (* WORD_IS_REGEX    = "is_regex"    *)
  replacement : option pystr     (* WORD_REPLACEMENT = "replacement" *)
}.

(** [{WORD_VALUE: p, WORD_IS_REGEX: r, WORD_REPLACEMENT: s}] *)
Definition rule (p : pystr) (r : bool) (s : pystr) : entry :=
  mkEntry (Some p) (Some r) (Some s).

(** [d.get(key, default)] *)
Definition get {A} (field : option A) (default : A) : A :=
  match field with
  | Some v => v
  | None => default
  end.

(** [d[key]] *)
Definition item {A} (field : option A) : res A :=
  match field with
  | Some v => Ret v
  | None => Raise KeyError
  end.

Record SanamLuangConfig : Type := mkConfig {
  entries : list entry;
  enabled : bool
}.

Definition get_entries (c : SanamLuangConfig) : list entry := entries c.
Definition get_enabled (c : SanamLuangConfig) : bool := enabled c.

(** Truth value of [entry.get(WORD_VALUE)]: [None] and the empty string are false. *)
Definition truthy (pattern : option pystr) : bool :=
  match pattern with
  | Some (_ :: _) => true
  | _ => false
  end.

(** ** The correction engine *)

Definition subst : Type := (pystr * pystr)%type.

(** The loop that fills [literal_entries] and [regex_patterns]. *)
Definition partition_step (acc : list subst * list subst) (e : entry)
  : list subst * list subst :=
  let pattern := value e in
  let is_re := get (is_regex e) false in
  let repl := get (replacement e) [] in
  if truthy pattern then
    if is_re
    then (fst acc, snd acc ++ [(get pattern [], repl)])
    else (fst acc ++ [(get pattern [], repl)], snd acc)
  else acc.

Definition partition_entries (es : list entry) : list subst * list subst :=
  fold_left partition_step es ([], []).

(** [sorted(l, key=lambda x: len(x[0]), reverse=True)]: stable, longest
    pattern first. *)
Fixpoint insert_longest (x : subst) (l : list subst) : list subst :=
  match l with
  | [] => [x]
  | y :: l' =>
      if length (fst x) <? length (fst y)
      then y :: insert_longest x l'
      else x :: y :: l'
  end.

Definition sorted_longest_first (l : list subst) : list subst :=
  fold_right insert_longest [] l.

(** [for pattern, replacement in l: text = text.replace(pattern, replacement)] *)
Definition literal_pass (l : list subst) (text : pystr) : pystr :=
  fold_left (fun t pr => str_replace t (fst pr) (snd pr)) l text.

Section Engine.

(** [re.sub(pattern, repl, text)] *)
Variable re_sub : pystr -> pystr -> pystr -> res pystr.

(** The loop over [regex_patterns]; only [re.error] is caught. *)
Fixpoint regex_pass (l : list subst) (text : pystr) : res pystr :=
  match l with
  | [] => Ret text
  | (pattern, repl) :: l' =>
      match re_sub pattern repl text with
      | Ret text' => regex_pass l' text'
      | Raise re_error => regex_pass l' text
      | Raise e => Raise e
      end
  end.

(** [GlobalPlugin._apply_corrections] *)
Definition apply_corrections (c : SanamLuangConfig) (text : pystr)
  : res pystr :=
  let es := get_entries c in
  match es with
  | [] => Ret text
  | _ :: _ =>
      let '(literal_entries, regex_patterns) := partition_entries es in
      let corrected := literal_pass (sorted_longest_first literal_entries) text in
      regex_pass regex_patterns corrected
  end.

(** [GlobalPlugin._process_text_hook]; [original] is
    [self._original_process_text] with the other arguments fixed. *)
Definition process_text_hook {R} (original : pystr -> res R)
  (c : SanamLuangConfig) (text : pystr) : res R :=
  if negb (get_enabled c) then original text
  else
    let es := get_entries c in
    match es with
    | [] => original text
    | _ :: _ =>
        let '(literal_entries, regex_patterns) := partition_entries es in
        let text1 := literal_pass (sorted_longest_first literal_entries) text in
        (text2 <- regex_pass regex_patterns text1 ;; original text2)%res
    end.

End Engine.

(** ** Files *)

Inductive file (A : Type) : Type :=
| Absent                 (* os.path.exists is false *)
| Unparseable            (* json.load raises *)
| Parsed (data : A).     (* json.load returns data *)
Arguments Absent {A}.
Arguments Unparseable {A}.
Arguments Parsed {A} data.

(** What [json.load] returns for the user's [SanamLuang.json]. *)
Inductive config_doc : Type :=
| DocDict (d_entries : option (list entry)) (d_enabled : option bool)
          (d_version : option pystr)
| DocList (l : list entry)
| DocOther.

(** A value of a [{key: value}] item of the bundled dictionary.  The code
    tests the value itself with [isinstance]; the first element of [inner],
    which it copies unexamined, is a string here. *)
Inductive map_value : Type :=
| MVNested (inner : list pystr)   (* a list whose first element is the list [inner] *)
| MVStr (s : pystr)
| MVOther.

(** An item of the bundled dictionary.  The code copies the three values of
    an [ItemRule] unexamined; here they have the types of the schema, a
    string, a boolean and a string, and an item whose values have other JSON
    types has no counterpart. *)
Inductive dict_item : Type :=
| ItemRule (v : pystr) (r : bool) (repl : option pystr)
    (* a dict with the keys "value" and "is_regex" *)
| ItemMap (kvs : list (pystr * map_value))
    (* any other dict *)
| ItemStr (s : pystr)
| ItemOther.

Inductive dict_doc : Type :=
| DictList (items : list dict_item)
| DictOther.

Record disk : Type := mkDisk {
  config_file : file config_doc;     (* _configFile *)
  default_dict : file dict_doc;      (* _defaultDictPath *)
  writable : bool
    (* whether the record can be written: when it cannot,
       open(_configFile, 'w') fails and the file stays as it was; a write
       that fails only after open has emptied the file has no counterpart *)
}.

Definition with_config_file (d : disk) (f : file config_doc) : disk :=
  mkDisk f (default_dict d) (writable d).

(** ** The rule store *)

(** The built-in Thai vowel-sign rules. *)
Definition builtin_entries : list entry :=
  [ rule [0xE33; 0xE48]%N false [0xE48; 0xE33]%N;
    rule [0xE33; 0xE49]%N false [0xE49; 0xE33]%N;
    rule [0xE40; 0xE40]%N false [0xE41]%N;
    rule [0xE4D; 0xE32]%N false [0xE33]%N;
    rule [0xE4D; 0xE48; 0xE32]%N false [0xE48; 0xE33]%N;
    rule [0xE4D; 0xE49; 0xE32]%N false [0xE49; 0xE33]%N ].

Definition map_replacement (v : map_value) : pystr :=
  match v with
  | MVNested inner =>
      match inner with
      | x :: _ => x
      | [] => []
      end
  | MVStr s => s
  | MVOther => []
  end.

Definition item_entries (it : dict_item) : list entry :=
  match it with
  | ItemRule v r repl => [rule v r (get repl [])]
  | ItemMap kvs => map (fun kv => rule (fst kv) false (map_replacement (snd kv))) kvs
  | ItemStr s => [rule s false []]
  | ItemOther => []
  end.

(** [SanamLuangConfig._load_default_dictionary] *)
Definition load_default_dictionary (d : disk) : list entry :=
  match default_dict d with
  | Parsed (DictList items) => flat_map item_entries items
  | Parsed DictOther => []
  | Absent => builtin_entries
  | Unparseable => builtin_entries
  end.

Definition version_1_1 : pystr := lit "1.1"%string.

Definition state : Type := (SanamLuangConfig * disk)%type.

(** [SanamLuangConfig._save_config] *)
Definition save_config (s : state) : state * bool :=
  let '(c, d) := s in
  if writable d
  then ((c, with_config_file d
              (Parsed (DocDict (Some (entries c)) (Some (enabled c))
                               (Some version_1_1)))), true)
  else (s, false).

(** [SanamLuangConfig._load_config] *)
Definition load_config (s : state) : state :=
  let '(c, d) := s in
  match config_file d with
  | Parsed (DocDict es en _) => (mkConfig (get es []) (get en true), d)
  | Parsed (DocList l) => (mkConfig l true, d)
  | Parsed DocOther => (mkConfig [] true, d)
  | Absent => fst (save_config (mkConfig (load_default_dictionary d) true, d))
  | Unparseable => (mkConfig (load_default_dictionary d) true, d)
  end.

(** [SanamLuangConfig.__init__] *)
Definition init (d : disk) : state := load_config (mkConfig [] true, d).

(** Python's [<] on [str]: lexicographic on code points. *)
Fixpoint str_ltb (a b : pystr) : bool :=
  match a, b with
  | _, [] => false
  | [], _ :: _ => true
  | x :: a', y :: b' =>
      if N.ltb x y then true
      else if N.ltb y x then false
      else str_ltb a' b'
  end.

Definition entry_eqb (a b : entry) : bool :=
  match value a, value b with
  | Some x, Some y => str_eqb x y
  | None, None => true
  | _, _ => false
  end &&
  match is_regex a, is_regex b with
  | Some x, Some y => Bool.eqb x y
  | None, None => true
  | _, _ => false
  end &&
  match replacement a, replacement b with
  | Some x, Some y => str_eqb x y
  | None, None => true
  | _, _ => false
  end.

(** [any(d[WORD_VALUE] == pattern and d[WORD_IS_REGEX] == is_regex
         for d in entries)] *)
Fixpoint has_key (es : list entry) (pattern : pystr) (is_re : bool) : res bool :=
  match es with
  | [] => Ret false
  | d :: es' =>
      (v <- item (value d) ;;
       if str_eqb v pattern then
         (r <- item (is_regex d) ;;
          if Bool.eqb r is_re then Ret true else has_key es' pattern is_re)
       else has_key es' pattern is_re)%res
  end.

(** The search loop of [update_entry], counting from [i]. *)
Fixpoint find_index (es : list entry) (old : entry) (i : nat) : res (option nat) :=
  match es with
  | [] => Ret None
  | d :: es' =>
      (v <- item (value d) ;;
       v0 <- item (value old) ;;
       if str_eqb v v0 then
         (r <- item (is_regex d) ;;
          r0 <- item (is_regex old) ;;
          if Bool.eqb r r0 then Ret (Some i) else find_index es' old (S i))
       else find_index es' old (S i))%res
  end.

(** [any(d[WORD_VALUE] == new_pattern and d[WORD_IS_REGEX] == new_is_regex
         and i != index for i, d in enumerate(entries))], counting from [i]. *)
Fixpoint collides (es : list entry) (pattern : pystr) (is_re : bool)
  (index i : nat) : res bool :=
  match es with
  | [] => Ret false
  | d :: es' =>
      (v <- item (value d) ;;
       if str_eqb v pattern then
         (r <- item (is_regex d) ;;
          if Bool.eqb r is_re && negb (Nat.eqb i index) then Ret true
          else collides es' pattern is_re index (S i))
       else collides es' pattern is_re index (S i))%res
  end.

(** [entries.pop(index)] for an index in range. *)
Fixpoint pop (es : list entry) (index : nat) : list entry :=
  match es, index with
  | [], _ => []
  | _ :: es', O => es'
  | d :: es', S k => d :: pop es' k
  end.

(** [entries[index] = e] for an index in range. *)
Fixpoint set_item (es : list entry) (index : nat) (e : entry) : list entry :=
  match es, index with
  | [], _ => []
  | _ :: es', O => e :: es'
  | d :: es', S k => d :: set_item es' k e
  end.

(** [entries.remove(e)]: drops the first equal element, [ValueError] if
    there is none. *)
Fixpoint list_remove (es : list entry) (e : entry) : res (list entry) :=
  match es with
  | [] => Raise ValueError
  | d :: es' =>
      if entry_eqb d e then Ret es'
      else (rest <- list_remove es' e ;; Ret (d :: rest))%res
  end.

Section Store.

(** [str.lower] *)
Variable lower : pystr -> pystr.

(** [lambda x: x[WORD_VALUE].lower()] *)
Definition sort_key (e : entry) : res pystr :=
  (v <- item (value e) ;; Ret (lower v))%res.

(** The keys of [list.sort] are computed first, for the whole list. *)
Fixpoint decorate (es : list entry) : res (list (pystr * entry)) :=
  match es with
  | [] => Ret []
  | e :: es' =>
      (k <- sort_key e ;;
       rest <- decorate es' ;;
       Ret ((k, e) :: rest))%res
  end.

Fixpoint insert_by_key (x : pystr * entry) (l : list (pystr * entry))
  : list (pystr * entry) :=
  match l with
  | [] => [x]
  | y :: l' =>
      if str_ltb (fst y) (fst x)
      then y :: insert_by_key x l'
      else x :: y :: l'
  end.

(** [entries.sort(key=lambda x: x[WORD_VALUE].lower())]: stable and
    ascending; when a key raises the list is left as it was. *)
Definition sort_entries (es : list entry) : res (list entry) :=
  (ks <- decorate es ;;
   Ret (map snd (fold_right insert_by_key [] ks)))%res.

(** [SanamLuangConfig.add_entry] *)
Definition add_entry (s : state) (pattern : pystr) (is_re : bool)
  (repl : pystr) : state * res bool :=
  let '(c, d) := s in
  let new_entry := rule pattern is_re repl in
  match has_key (entries c) pattern is_re with
  | Raise e => (s, Raise e)
  | Ret true => (s, Ret false)
  | Ret false =>
      let appended := entries c ++ [new_entry] in
      match sort_entries appended with
      | Raise e => ((mkConfig appended (enabled c), d), Raise e)
      | Ret sorted =>
          let '(s', ok) := save_config (mkConfig sorted (enabled c), d) in
          (s', Ret ok)
      end
  end.

(** [SanamLuangConfig.update_entry]; every exception is caught, logged
    and turned into [False]. *)
Definition update_entry (s : state) (old : entry) (new_pattern : pystr)
  (new_is_regex : bool) (new_replacement : pystr) : state * bool :=
  let '(c, d) := s in
  match find_index (entries c) old 0 with
  | Raise _ => (s, false)
  | Ret None => (s, false)
  | Ret (Some index) =>
      let new_entry := rule new_pattern new_is_regex new_replacement in
      match collides (entries c) new_pattern new_is_regex index 0 with
      | Raise _ => (s, false)
      | Ret hit =>
          let es := if hit then pop (entries c) index
                    else set_item (entries c) index new_entry in
          match sort_entries es with
          | Raise _ => ((mkConfig es (enabled c), d), false)
          | Ret sorted => save_config (mkConfig sorted (enabled c), d)
          end
      end
  end.

(** [SanamLuangConfig.remove_entry] *)
Definition remove_entry (s : state) (e : entry) : state * bool :=
  let '(c, d) := s in
  match list_remove (entries c) e with
  | Ret es => save_config (mkConfig es (enabled c), d)
  | Raise _ => (s, false)
  end.

(** [SanamLuangConfig.reset_to_defaults] *)
Definition reset_to_defaults (s : state) : state * bool :=
  let '(c, d) := s in
  save_config (mkConfig (load_default_dictionary d) (enabled c), d).

(** [SanamLuangConfig.set_enabled] *)
Definition set_enabled (s : state) (b : bool) : state * bool :=
  let '(c, d) := s in
  save_config (mkConfig (entries c) b, d).

End Store.

(** ** Test doubles for the standard library *)

Fixpoint lookup_exn (p : pystr) (table : list (pystr * exn)) : option exn :=
  match table with
  | [] => None
  | (q, e) :: table' => if str_eqb p q then Some e else lookup_exn p table'
  end.

(** An [re.sub] that answers from two tables: a pattern listed in
    [bad_patterns] raises its exception when it is compiled, a replacement
    template listed in [bad_templates] raises its exception when it is
    parsed (CPython parses the template before it searches), and every
    other pattern is searched for literally. *)
Definition table_re_sub (bad_patterns bad_templates : list (pystr * exn))
  (pattern repl text : pystr) : res pystr :=
  match lookup_exn pattern bad_patterns with
  | Some e => Raise e
  | None =>
      match lookup_exn repl bad_templates with
      | Some e => Raise e
      | None => Ret (str_replace text pattern repl)
      end
  end.

(** Whether the pattern compiles and is found in the text, for the same
    tables. *)
Definition table_re_search (bad_patterns : list (pystr * exn))
  (pattern text : pystr) : bool :=
  match lookup_exn pattern bad_patterns with
  | Some _ => false
  | None => occurs pattern text
  end.

(** Patterns and templates that CPython's [re] rejects:
    ["("] is [re.error] (missing parenthesis), ["a{4294967296}"] is
    [OverflowError] (the repetition number is too large), and the template
    ["\g<foo>"] is [IndexError] (unknown group name). *)
Definition cpython_bad_patterns : list (pystr * exn) :=
  [ (lit "(", re_error); (lit "a{4294967296}", OverflowError) ].

Definition cpython_bad_templates : list (pystr * exn) :=
  [ (lit "\g<foo>", IndexError) ].

Definition sample_re_sub : pystr -> pystr -> pystr -> res pystr :=
  table_re_sub cpython_bad_patterns cpython_bad_templates.

Definition sample_re_search : pystr -> pystr -> bool :=
  table_re_search cpython_bad_patterns.

(** [str.lower] on the ASCII letters. *)
Definition ascii_lower (s : pystr) : pystr :=
  map (fun c => if (N.leb 65 c && N.leb c 90)%bool then (c + 32)%N else c) s.

(** ** The rules of each pass, read off the rule set *)

Definition is_literal_rule (e : entry) : bool :=
  truthy (value e) && negb (get (is_regex e) false).

Definition is_regex_rule (e : entry) : bool :=
  truthy (value e) && get (is_regex e) false.

Definition as_subst (e : entry) : subst :=
  (get (value e) [], get (replacement e) []).

Definition literal_rules (es : list entry) : list subst :=
  map as_subst (filter is_literal_rule es).

Definition regex_rules (es : list entry) : list subst :=
  map as_subst (filter is_regex_rule es).

(** Longest pattern first. *)
Definition longer_eq (a b : subst) : Prop :=
  length (fst b) <= length (fst a).

(** No rule of the rule set matches the text: no literal pattern occurs in
    it and [re_search] finds no regex pattern in it. *)
Definition no_rule_matches (re_search : pystr -> pystr -> bool)
  (c : SanamLuangConfig) (t : pystr) : Prop :=
  (forall p r, In (p, r) (literal_rules (entries c)) -> occurs p t = false) /\
  (forall p r, In (p, r) (regex_rules (entries c)) -> re_search p t = false).

Definition is_nil {A} (l : list A) : bool :=
  match l with
  | [] => true
  | _ :: _ => false
  end.

(** ** The invariants of the rule set *)

(** The entry carries the two keys the store reads with [d[...]]. *)
Definition complete (e : entry) : bool :=
  match value e, is_regex e with
  | Some _, Some _ => true
  | _, _ => false
  end.

Definition well_formed (es : list entry) : Prop :=
  Forall (fun e => complete e = true) es.

(** The uniqueness key [(pattern, isRegex)] of an entry. *)
Definition key (e : entry) : option pystr * option bool :=
  (value e, is_regex e).

Definition unique_keys (es : list entry) : Prop :=
  NoDup (map key es).

Definition key_is (p : pystr) (r : bool) (e : entry) : bool :=
  match value e, is_regex e with
  | Some v, Some b => str_eqb v p && Bool.eqb b r
  | _, _ => false
  end.

(** How many entries carry the key [(p, r)]. *)
Definition count_key (p : pystr) (r : bool) (es : list entry) : nat :=
  length (filter (key_is p r) es).

(** Ascending by lower-cased pattern. *)
Definition entry_le (lower : pystr -> pystr) (a b : entry) : Prop :=
  str_ltb (lower (get (value b) [])) (lower (get (value a) [])) = false.

Definition sorted_by_pattern (lower : pystr -> pystr) (es : list entry) : Prop :=
  StronglySorted (entry_le lower) es.

(** The order of the decorated list inside [list.sort]. *)
Definition key_le (a b : pystr * entry) : Prop :=
  str_ltb (fst b) (fst a) = false.

(** ** Callers of the store *)

(** What [ui.message] speaks in [_toggle_addon]. *)
Inductive spoken : Type :=
| SaidEnabled
| SaidDisabled.

(** [GlobalPlugin._toggle_addon]: the result of [set_enabled] is not looked
    at. *)
Definition toggle_addon (s : state) : state * spoken :=
  let new_state := negb (get_enabled (fst s)) in
  let s' := fst (set_enabled s new_state) in
  (s', if new_state then SaidEnabled else SaidDisabled).

(** What the user gets back from [SanamLuangDialog.on_add]. *)
Inductive add_feedback : Type :=
| NothingDone        (* dialog cancelled, or the pattern field left empty *)
| AddedAndRefreshed  (* list box refreshed, the success message spoken *)
| DuplicateBox.      (* the error box that says the entry exists already *)

(** [SanamLuangDialog.on_add]; [answer] is what the entry dialog returned:
    [None] when it was not closed with OK, else the three fields. *)
Definition on_add (lower : pystr -> pystr) (s : state)
  (answer : option (pystr * bool * pystr)) : state * res add_feedback :=
  match answer with
  | None => (s, Ret NothingDone)
  | Some (pattern, is_re, repl) =>
      if negb (is_nil pattern) then
        match add_entry lower s pattern is_re repl with
        | (s', Ret true) => (s', Ret AddedAndRefreshed)
        | (s', Ret false) => (s', Ret DuplicateBox)
        | (s', Raise e) => (s', Raise e)
        end
      else (s, Ret NothingDone)
  end.

(** Every pattern of the rule set is a non-empty string. *)
Definition patterns_nonempty (es : list entry) : Prop :=
  Forall (fun e => truthy (value e) = true) es.

(** The pattern of the rule has [n] characters. *)
Definition pattern_length_is (n : nat) (y : subst) : bool :=
  length (fst y) =? n.

(** ** Strings: lemmas *)

Lemma str_eqb_refl (a : pystr) : str_eqb a a = true.
Proof.
  induction a as [|x a IH]; simpl; [reflexivity|].
  now rewrite N.eqb_refl, IH.
Qed.

Lemma str_eqb_eq (a b : pystr) : str_eqb a b = true <-> a = b.
Proof.
  split.
  - revert b; induction a as [|x a IH]; intros [|y b]; simpl; try discriminate.
    + reflexivity.
    + intros H. apply andb_prop in H as [Hx Hr].
      apply N.eqb_eq in Hx. apply IH in Hr. now subst.
  - intros <-. apply str_eqb_refl.
Qed.

Lemma str_eqb_neq (a b : pystr) : str_eqb a b = false <-> a <> b.
Proof.
  split.
  - intros H E. apply str_eqb_eq in E. congruence.
  - intros H. destruct (str_eqb a b) eqn:E; [|reflexivity].
    apply str_eqb_eq in E. contradiction.
Qed.

Lemma starts_with_app (old rest : pystr) : starts_with (old ++ rest) old = true.
Proof.
  induction old as [|o old IH]; simpl; [reflexivity|].
  now rewrite N.eqb_refl, IH.
Qed.

Lemma starts_with_occurs (old t : pystr) :
  starts_with t old = true -> occurs old t = true.
Proof.
  intros H. destruct t; simpl in *; now rewrite H.
Qed.

Lemma occurs_tail (old : pystr) (c : char) (t : pystr) :
  occurs old (c :: t) = false -> occurs old t = false.
Proof.
  simpl. intros H. now apply orb_false_elim in H as [_ H].
Qed.

Lemma occurs_head (old t : pystr) :
  occurs old t = false -> starts_with t old = false.
Proof.
  intros H. destruct (starts_with t old) eqn:E; [|reflexivity].
  apply starts_with_occurs in E. congruence.
Qed.

(** The characters of a replaced occurrence are passed over. *)
Lemma replace_from_skip (old new pre rest : pystr) :
  replace_from old new (length pre) (pre ++ rest) = replace_from old new 0 rest.
Proof.
  induction pre as [|c pre IH]; simpl; [reflexivity | exact IH].
Qed.

Lemma replace_from_unmatched (old new t : pystr) :
  occurs old t = false -> replace_from old new 0 t = t.
Proof.
  induction t as [|c t IH]; intros H; [reflexivity|].
  cbn [replace_from]. rewrite (occurs_head old (c :: t) H).
  f_equal. apply IH. exact (occurs_tail old c t H).
Qed.

(** [str.replace] leaves a text without occurrence of [old] as it is. *)
Lemma str_replace_unmatched (text old new : pystr) :
  old <> [] -> occurs old text = false -> str_replace text old new = text.
Proof.
  intros Hne H. destruct old as [|o old]; [contradiction|].
  apply replace_from_unmatched. exact H.
Qed.

(** The three equations of a global, leftmost, non-overlapping
    replacement. *)
Lemma str_replace_nil (old new : pystr) :
  old <> [] -> str_replace [] old new = [].
Proof. destruct old; [contradiction | reflexivity]. Qed.

Lemma str_replace_match (old new rest : pystr) :
  old <> [] ->
  str_replace (old ++ rest) old new = new ++ str_replace rest old new.
Proof.
  intros Hne. destruct old as [|o old]; [contradiction|].
  unfold str_replace.
  change ((o :: old) ++ rest) with (o :: (old ++ rest)).
  cbn [replace_from].
  change (o :: (old ++ rest)) with ((o :: old) ++ rest).
  rewrite starts_with_app. f_equal.
  replace (length (o :: old) - 1) with (length old) by (simpl; lia).
  apply replace_from_skip.
Qed.

Lemma str_replace_step (old new : pystr) (c : char) (rest : pystr) :
  old <> [] -> starts_with (c :: rest) old = false ->
  str_replace (c :: rest) old new = c :: str_replace rest old new.
Proof.
  intros Hne H. destruct old as [|o old]; [contradiction|].
  unfold str_replace. cbn [replace_from]. now rewrite H.
Qed.

(** ** The engine: lemmas *)

Lemma partition_entries_acc (es : list entry) (a b : list subst) :
  fold_left partition_step es (a, b)
  = (a ++ literal_rules es, b ++ regex_rules es).
Proof.
  revert a b. induction es as [|e es IH]; intros a b.
  - simpl. now rewrite !app_nil_r.
  - cbn [fold_left]. unfold literal_rules, regex_rules. cbn [filter].
    unfold partition_step at 2, is_literal_rule, is_regex_rule.
    destruct (truthy (value e)); cbn [andb fst snd].
    + destruct (get (is_regex e) false); cbn [negb map].
      * rewrite IH. unfold literal_rules, regex_rules, as_subst.
        now rewrite <- app_assoc.
      * rewrite IH. unfold literal_rules, regex_rules, as_subst.
        now rewrite <- app_assoc.
    + apply IH.
Qed.

Lemma partition_entries_rules (es : list entry) :
  partition_entries es = (literal_rules es, regex_rules es).
Proof. unfold partition_entries. now rewrite partition_entries_acc. Qed.

Lemma insert_longest_perm (x : subst) (l : list subst) :
  Permutation (x :: l) (insert_longest x l).
Proof.
  induction l as [|y l IH]; simpl; [apply Permutation_refl|].
  destruct (length (fst x) <? length (fst y)).
  - eapply perm_trans; [apply perm_swap|]. now apply perm_skip.
  - apply Permutation_refl.
Qed.

Lemma sorted_longest_first_perm (l : list subst) :
  Permutation l (sorted_longest_first l).
Proof.
  induction l as [|x l IH]; simpl; [constructor|].
  eapply perm_trans; [|apply insert_longest_perm]. now apply perm_skip.
Qed.

Lemma insert_longest_sorted (x : subst) (l : list subst) :
  StronglySorted longer_eq l -> StronglySorted longer_eq (insert_longest x l).
Proof.
  induction l as [|y l IH]; intros Hs; simpl.
  - constructor; [constructor | constructor].
  - inversion Hs as [|? ? Hl Hall]; subst.
    destruct (length (fst x) <? length (fst y)) eqn:E.
    + apply Nat.ltb_lt in E. constructor; [now apply IH|].
      rewrite Forall_forall. intros z Hz.
      apply (Permutation_in _ (Permutation_sym (insert_longest_perm x l))) in Hz.
      destruct Hz as [<-|Hz]; [unfold longer_eq; lia|].
      rewrite Forall_forall in Hall. now apply Hall.
    + apply Nat.ltb_ge in E. constructor; [exact Hs|].
      constructor; [exact E|].
      rewrite Forall_forall in Hall |- *. intros z Hz.
      specialize (Hall z Hz). unfold longer_eq in *. lia.
Qed.

Lemma sorted_longest_first_sorted (l : list subst) :
  StronglySorted longer_eq (sorted_longest_first l).
Proof.
  induction l as [|x l IH]; simpl; [constructor|].
  now apply insert_longest_sorted.
Qed.

(** Both correction paths as one formula over the rules of the two passes. *)
Lemma apply_corrections_passes re_sub (c : SanamLuangConfig) (text : pystr) :
  apply_corrections re_sub c text
  = regex_pass re_sub (regex_rules (entries c))
      (literal_pass (sorted_longest_first (literal_rules (entries c))) text).
Proof.
  unfold apply_corrections, get_entries.
  destruct (entries c) as [|e es] eqn:E; [reflexivity|].
  now rewrite partition_entries_rules.
Qed.

Lemma process_text_hook_passes re_sub R (original : pystr -> res R)
  (c : SanamLuangConfig) (text : pystr) :
  enabled c = true ->
  process_text_hook re_sub original c text
  = bind (apply_corrections re_sub c text) original.
Proof.
  intros En. unfold process_text_hook, apply_corrections, get_enabled, get_entries.
  rewrite En. cbn [negb].
  destruct (entries c) as [|e es]; [reflexivity|].
  now destruct (partition_entries (e :: es)).
Qed.

Lemma literal_rules_app (es1 es2 : list entry) :
  literal_rules (es1 ++ es2) = literal_rules es1 ++ literal_rules es2.
Proof. unfold literal_rules. now rewrite filter_app, map_app. Qed.

Lemma regex_rules_app (es1 es2 : list entry) :
  regex_rules (es1 ++ es2) = regex_rules es1 ++ regex_rules es2.
Proof. unfold regex_rules. now rewrite filter_app, map_app. Qed.

Lemma literal_rules_nonempty (es : list entry) (p r : pystr) :
  In (p, r) (literal_rules es) -> p <> [].
Proof.
  unfold literal_rules. rewrite in_map_iff. intros [e [He Hin]].
  apply filter_In in Hin as [_ Hlit]. unfold is_literal_rule in Hlit.
  apply andb_prop in Hlit as [Ht _].
  unfold as_subst in He. inversion He; subst.
  destruct (value e) as [[|x v]|]; simpl in *; discriminate.
Qed.

Lemma literal_pass_unmatched (l : list subst) (t : pystr) :
  (forall p r, In (p, r) l -> p <> [] /\ occurs p t = false) ->
  literal_pass l t = t.
Proof.
  unfold literal_pass. induction l as [|[p r] l IH]; intros H; [reflexivity|].
  cbn [fold_left fst snd].
  destruct (H p r (or_introl eq_refl)) as [Hne Ho].
  rewrite (str_replace_unmatched t p r Hne Ho).
  apply IH. intros q s Hin. apply (H q s). now right.
Qed.

Lemma regex_pass_app re_sub (l1 l2 : list subst) (t : pystr) :
  regex_pass re_sub (l1 ++ l2) t
  = bind (regex_pass re_sub l1 t) (regex_pass re_sub l2).
Proof.
  revert t. induction l1 as [|[p r] l1 IH]; intros t; [reflexivity|].
  cbn [app regex_pass].
  destruct (re_sub p r t) as [t'|e]; [apply IH|].
  destruct e; try reflexivity. apply IH.
Qed.

Lemma table_re_sub_unmatched (bp bt : list (pystr * exn)) (p r t : pystr) :
  p <> [] ->
  table_re_search bp p t = false ->
  table_re_sub bp bt p r t = Ret t \/ exists e, table_re_sub bp bt p r t = Raise e.
Proof.
  unfold table_re_search, table_re_sub. intros Hne H.
  destruct (lookup_exn p bp) as [e|]; [right; now exists e|].
  destruct (lookup_exn r bt) as [e|]; [right; now exists e|].
  left. now rewrite (str_replace_unmatched t p r Hne H).
Qed.

(** ** The correction engine: properties *)

(** C1.  The literal pass of the engine runs the literal (non-regex) rules of
    the rule set as [str.replace] calls over the running text, in an order
    that is a rearrangement of those rules with the pattern lengths
    descending; with the rules ("ab" -> "X") and ("abc" -> "Y"), in either
    order in the rule set, the text "abc" becomes "Y". *)
Theorem C1_literal_pass_longest_first :
  forall re_sub (c : SanamLuangConfig) (text : pystr),
    let ls := sorted_longest_first (literal_rules (entries c)) in
    Permutation (literal_rules (entries c)) ls /\
    StronglySorted longer_eq ls /\
    apply_corrections re_sub c text
    = regex_pass re_sub (regex_rules (entries c))
        (fold_left (fun t pr => str_replace t (fst pr) (snd pr)) ls text) /\
    (forall b,
        apply_corrections re_sub
          (mkConfig [rule (lit "ab") false (lit "X");
                     rule (lit "abc") false (lit "Y")] b) (lit "abc")
        = Ret (lit "Y")) /\
    (forall b,
        apply_corrections re_sub
          (mkConfig [rule (lit "abc") false (lit "Y");
                     rule (lit "ab") false (lit "X")] b) (lit "abc")
        = Ret (lit "Y")).
Proof.
  intros re_sub c text ls. repeat split.
  - apply sorted_longest_first_perm.
  - apply sorted_longest_first_sorted.
  - apply apply_corrections_passes.
Qed.

(** C2.  The speech hook hands the text unchanged to the original
    [processText] when the add-on is disabled or has no entries, and
    otherwise hands over what [_apply_corrections] computes;
    [_apply_corrections] itself does not depend on the enabled flag.  With
    the rule U+0E40 U+0E40 -> U+0E41 and the add-on disabled, the hook
    passes U+0E40 U+0E40 U+0E01 on as it is and the manual path returns
    U+0E41 U+0E01. *)
Theorem C2_enabled_flag_asymmetry :
  forall re_sub (R : Type) (original : pystr -> res R)
         (c : SanamLuangConfig) (text : pystr),
    process_text_hook re_sub original c text
    = (if negb (enabled c) || is_nil (entries c)
       then original text
       else bind (apply_corrections re_sub c text) original) /\
    (forall b,
        apply_corrections re_sub (mkConfig (entries c) b) text
        = apply_corrections re_sub c text) /\
    (let off := mkConfig [rule [0xE40; 0xE40]%N false [0xE41]%N] false in
     process_text_hook re_sub original off [0xE40; 0xE40; 0xE01]%N
     = original [0xE40; 0xE40; 0xE01]%N /\
     apply_corrections re_sub off [0xE40; 0xE40; 0xE01]%N
     = Ret [0xE41; 0xE01]%N).
Proof.
  intros re_sub R original c text. split; [|split].
  - destruct (enabled c) eqn:En; cbn [negb orb].
    + destruct (entries c) as [|e es] eqn:E.
      * unfold process_text_hook, get_enabled, get_entries. now rewrite En, E.
      * cbn [is_nil]. now apply process_text_hook_passes.
    + unfold process_text_hook, get_enabled. now rewrite En.
  - intros b. now rewrite !apply_corrections_passes.
  - split; reflexivity.
Qed.

(** C3, at a failing input.  The pattern "a{4294967296}" makes [re.sub]
    raise [OverflowError], which [except re.error] does not catch: the
    correction pass raises it to the caller, and the valid literal rule
    ("b" -> "c") of the same rule set has no effect on what the caller
    gets. *)
Lemma C3_other_exception_propagates :
  (forall t, sample_re_sub (lit "a{4294967296}") [] t = Raise OverflowError) /\
  apply_corrections sample_re_sub
    (mkConfig [rule (lit "a{4294967296}") true [];
               rule (lit "b") false (lit "c")] true) (lit "ab")
  = Raise OverflowError.
Proof. split; reflexivity. Qed.

Lemma regex_pass_unmatched re_sub (l : list subst) (t : pystr) :
  (forall p r, In (p, r) l ->
     re_sub p r t = Ret t \/ re_sub p r t = Raise re_error) ->
  regex_pass re_sub l t = Ret t.
Proof.
  induction l as [|[p r] l IH]; intros H; [reflexivity|].
  cbn [regex_pass].
  assert (IH' : regex_pass re_sub l t = Ret t).
  { apply IH. intros q s Hin. apply (H q s). now right. }
  destruct (H p r (or_introl eq_refl)) as [E|E]; now rewrite E.
Qed.

(** C8, at a failing input.  The text "abc" contains no match of the regex
    rule ("z" -> "\g<foo>"), the only rule of the rule set, yet the engine
    does not return "abc": [re.sub] raises [IndexError] for the unknown
    group name of the template, and the engine raises it. *)
Lemma C8_unmatched_text_raises :
  let c := mkConfig [rule (lit "z") true (lit "\g<foo>")] true in
  no_rule_matches sample_re_search c (lit "abc") /\
  apply_corrections sample_re_sub c (lit "abc") = Raise IndexError /\
  apply_corrections sample_re_sub c (lit "abc") <> Ret (lit "abc").
Proof.
  cbv zeta. split; [|split].
  - split; intros p r Hin.
    + destruct Hin.
    + destruct Hin as [E|[]]. inversion E; subst. reflexivity.
  - reflexivity.
  - discriminate.
Qed.

Section FixedPoint.

Variable re_sub : pystr -> pystr -> pystr -> res pystr.

(** Whether the pattern compiles and has a match in the text. *)
Variable re_search : pystr -> pystr -> bool.

(** [re.sub] returns the text as it is when the pattern has no match in
    it, unless it raises. *)
Hypothesis re_sub_unmatched :
  forall p r t, p <> [] -> re_search p t = false ->
    re_sub p r t = Ret t \/ exists e, re_sub p r t = Raise e.

(** X20.  When no rule of the rule set matches the text and no regex rule
    makes [re.sub] raise an exception other than [re.error] on it, the
    engine returns the text itself, and so does a second application;
    idempotence fails in general: with the rule ("aa" -> "a") the text
    "aaa" becomes "aa" and then "a". *)
Theorem X20_unmatched_text_fixed_point :
  forall (c : SanamLuangConfig) (t : pystr),
    no_rule_matches re_search c t ->
    (forall p r e, In (p, r) (regex_rules (entries c)) ->
                   re_sub p r t = Raise e -> e = re_error) ->
    apply_corrections re_sub c t = Ret t /\
    bind (apply_corrections re_sub c t) (apply_corrections re_sub c) = Ret t /\
    (let c' := mkConfig [rule (lit "aa") false (lit "a")] (enabled c) in
     apply_corrections re_sub c' (lit "aaa") = Ret (lit "aa") /\
     apply_corrections re_sub c' (lit "aa") = Ret (lit "a")).
Proof.
  intros c t [Hlit Hre] Honly.
  assert (Hfix : apply_corrections re_sub c t = Ret t).
  { rewrite apply_corrections_passes.
    rewrite literal_pass_unmatched.
    - apply regex_pass_unmatched. intros p r Hin.
      assert (Hne : p <> []).
      { unfold regex_rules in Hin. apply in_map_iff in Hin as [e [He Hin]].
        apply filter_In in Hin as [_ Hr]. unfold is_regex_rule in Hr.
        apply andb_prop in Hr as [Ht _]. unfold as_subst in He.
        inversion He; subst.
        destruct (value e) as [[|x v]|]; simpl in *; discriminate. }
      destruct (re_sub_unmatched p r t Hne (Hre p r Hin)) as [E|[e E]].
      + now left.
      + right. now rewrite E, (Honly p r e Hin E).
    - intros p r Hin.
      apply (Permutation_in _
               (Permutation_sym (sorted_longest_first_perm _))) in Hin.
      split; [exact (literal_rules_nonempty _ p r Hin) | exact (Hlit p r Hin)]. }
  split; [exact Hfix|]. split.
  - rewrite Hfix. exact Hfix.
  - split; reflexivity.
Qed.

End FixedPoint.

(** A rule set of a regex rule without match, a regex rule that does not
    compile and a literal rule without occurrence, on "abc". *)
Lemma X20_unmatched_text_fixed_point_witness :
  let c := mkConfig [rule (lit "z") true (lit "y");
                     rule (lit "(") true (lit "y");
                     rule (lit "abd") false (lit "y")] true in
  apply_corrections sample_re_sub c (lit "abc") = Ret (lit "abc").
Proof.
  cbv zeta.
  refine (proj1 (X20_unmatched_text_fixed_point sample_re_sub sample_re_search
            _ _ (lit "abc") _ _)).
  - intros p r t Hne H.
    exact (table_re_sub_unmatched cpython_bad_patterns cpython_bad_templates
             p r t Hne H).
  - split; intros p r Hin.
    + destruct Hin as [E|[]]. inversion E; subst. reflexivity.
    + destruct Hin as [E|[E|[]]]; inversion E; subst; reflexivity.
  - intros p r e Hin Hraise.
    destruct Hin as [E|[E|[]]]; inversion E; subst.
    + discriminate Hraise.
    + now inversion Hraise.
Defined.

(** C9.  An entry whose pattern is absent or the empty string takes part in
    neither pass: in both correction paths the rule set gives what it gives
    without that entry. *)
Theorem C9_empty_pattern_ignored :
  forall re_sub (R : Type) (original : pystr -> res R)
         (c : SanamLuangConfig) (text : pystr)
         (es1 es2 : list entry) (e : entry),
    entries c = es1 ++ e :: es2 ->
    value e = None \/ value e = Some [] ->
    apply_corrections re_sub c text
    = apply_corrections re_sub (mkConfig (es1 ++ es2) (enabled c)) text /\
    process_text_hook re_sub original c text
    = process_text_hook re_sub original (mkConfig (es1 ++ es2) (enabled c)) text.
Proof.
  intros re_sub R original c text es1 es2 e E Hv.
  assert (Ht : truthy (value e) = false) by (destruct Hv as [-> | ->]; reflexivity).
  assert (Hl : literal_rules (entries c) = literal_rules (es1 ++ es2)).
  { rewrite E, !literal_rules_app. unfold literal_rules at 2.
    cbn [filter]. unfold is_literal_rule. now rewrite Ht. }
  assert (Hr : regex_rules (entries c) = regex_rules (es1 ++ es2)).
  { rewrite E, !regex_rules_app. unfold regex_rules at 2.
    cbn [filter]. unfold is_regex_rule. now rewrite Ht. }
  assert (Ha : apply_corrections re_sub c text
               = apply_corrections re_sub (mkConfig (es1 ++ es2) (enabled c)) text).
  { rewrite !apply_corrections_passes. cbn [entries]. now rewrite Hl, Hr. }
  split; [exact Ha|].
  destruct (enabled c) eqn:En.
  - rewrite !process_text_hook_passes by (first [assumption | reflexivity]).
    now rewrite Ha.
  - unfold process_text_hook, get_enabled. cbn [enabled]. now rewrite En.
Qed.

(** An entry with the empty pattern in front of the rule "b" -> "c". *)
Lemma C9_empty_pattern_ignored_witness :
  apply_corrections sample_re_sub
    (mkConfig [rule [] false (lit "x"); rule (lit "b") false (lit "c")] true)
    (lit "ab")
  = apply_corrections sample_re_sub
      (mkConfig ([] ++ [rule (lit "b") false (lit "c")]) true) (lit "ab").
Proof.
  apply (proj1 (C9_empty_pattern_ignored sample_re_sub pystr (fun t => Ret t)
           (mkConfig [rule [] false (lit "x"); rule (lit "b") false (lit "c")] true)
           (lit "ab") [] [rule (lit "b") false (lit "c")]
           (rule [] false (lit "x")) eq_refl (or_intror eq_refl))).
Defined.

(** ** The rule store: lemmas *)

Lemma str_ltb_irrefl (a : pystr) : str_ltb a a = false.
Proof.
  induction a as [|x a IH]; [reflexivity|].
  cbn [str_ltb]. now rewrite N.ltb_irrefl.
Qed.

Lemma str_ltb_asym (a b : pystr) : str_ltb a b = true -> str_ltb b a = false.
Proof.
  revert b. induction a as [|x a IH]; intros [|y b]; cbn [str_ltb]; try easy.
  destruct (N.ltb x y) eqn:Exy, (N.ltb y x) eqn:Eyx; try easy.
  - apply N.ltb_lt in Exy, Eyx. lia.
  - apply IH.
Qed.

(** [<] on strings is a strict total order: its complement is transitive. *)
Lemma str_ltb_cotrans (a b c : pystr) :
  str_ltb c a = true -> str_ltb c b = true \/ str_ltb b a = true.
Proof.
  revert a b. induction c as [|z c IH]; intros [|x a] [|y b]; cbn [str_ltb];
    try (intros; discriminate); try (now right); try (now left).
  destruct (N.ltb z x) eqn:Ezx, (N.ltb x z) eqn:Exz,
           (N.ltb z y) eqn:Ezy, (N.ltb y z) eqn:Eyz,
           (N.ltb y x) eqn:Eyx, (N.ltb x y) eqn:Exy;
    try (intros; discriminate); try (now right); try (now left);
    try (rewrite ?N.ltb_lt, ?N.ltb_ge in *; lia).
  apply IH.
Qed.

Lemma entry_le_trans lower (a b c : entry) :
  entry_le lower a b -> entry_le lower b c -> entry_le lower a c.
Proof.
  unfold entry_le. intros Hab Hbc.
  destruct (str_ltb (lower (get (value c) [])) (lower (get (value a) []))) eqn:E;
    [|reflexivity].
  destruct (str_ltb_cotrans _ (lower (get (value b) [])) _ E); congruence.
Qed.

Lemma well_formed_app (l1 l2 : list entry) :
  well_formed (l1 ++ l2) <-> well_formed l1 /\ well_formed l2.
Proof. unfold well_formed. apply Forall_app. Qed.

Lemma well_formed_perm (l1 l2 : list entry) :
  Permutation l1 l2 -> well_formed l1 -> well_formed l2.
Proof. unfold well_formed. intros P. now apply Permutation_Forall. Qed.

Lemma complete_rule (p : pystr) (r : bool) (s : pystr) : complete (rule p r s) = true.
Proof. reflexivity. Qed.

Lemma key_is_key (p : pystr) (r : bool) (e : entry) :
  key_is p r e = true <-> key e = (Some p, Some r).
Proof.
  unfold key_is, key.
  destruct (value e) as [v|], (is_regex e) as [b|]; split; try discriminate.
  - intros H. apply andb_prop in H as [Hv Hb].
    apply str_eqb_eq in Hv. apply eqb_prop in Hb. now subst.
  - intros H. inversion H; subst. now rewrite str_eqb_refl, eqb_reflx.
Qed.

(** The generator of [add_entry] finds the key exactly when an entry carries
    it, on entries that carry both keys. *)
Lemma has_key_wf (es : list entry) (p : pystr) (r : bool) :
  well_formed es -> has_key es p r = Ret (existsb (key_is p r) es).
Proof.
  induction 1 as [|d es Hd Hes IH]; [reflexivity|].
  cbn [has_key existsb]. unfold key_is at 1. unfold complete in Hd.
  destruct (value d) as [v|]; [|discriminate].
  destruct (is_regex d) as [b|]; [|discriminate].
  cbn [item bind].
  destruct (str_eqb v p); cbn [andb orb bind]; [|exact IH].
  destruct (Bool.eqb b r); cbn [orb]; [reflexivity | exact IH].
Qed.

Lemma decorate_wf lower (es : list entry) :
  well_formed es ->
  decorate lower es = Ret (map (fun e => (lower (get (value e) []), e)) es).
Proof.
  induction 1 as [|d es Hd Hes IH]; [reflexivity|].
  cbn [decorate map]. unfold sort_key. unfold complete in Hd.
  destruct (value d) as [v|]; [|now destruct (is_regex d)].
  cbn [item bind get]. now rewrite IH.
Qed.

Lemma insert_by_key_perm (x : pystr * entry) (l : list (pystr * entry)) :
  Permutation (x :: l) (insert_by_key x l).
Proof.
  induction l as [|y l IH]; cbn [insert_by_key]; [apply Permutation_refl|].
  destruct (str_ltb (fst y) (fst x)).
  - eapply perm_trans; [apply perm_swap|]. now apply perm_skip.
  - apply Permutation_refl.
Qed.

Lemma sort_decorated_perm (l : list (pystr * entry)) :
  Permutation l (fold_right insert_by_key [] l).
Proof.
  induction l as [|x l IH]; cbn [fold_right]; [constructor|].
  eapply perm_trans; [|apply insert_by_key_perm]. now apply perm_skip.
Qed.

Lemma key_le_trans (a b c : pystr * entry) :
  key_le a b -> key_le b c -> key_le a c.
Proof.
  unfold key_le. intros Hab Hbc.
  destruct (str_ltb (fst c) (fst a)) eqn:E; [|reflexivity].
  destruct (str_ltb_cotrans _ (fst b) _ E); congruence.
Qed.

Lemma insert_by_key_sorted (x : pystr * entry) (l : list (pystr * entry)) :
  StronglySorted key_le l -> StronglySorted key_le (insert_by_key x l).
Proof.
  induction l as [|y l IH]; intros Hs; cbn [insert_by_key].
  - constructor; constructor.
  - inversion Hs as [|? ? Hl Hall]; subst.
    destruct (str_ltb (fst y) (fst x)) eqn:E.
    + constructor; [now apply IH|].
      rewrite Forall_forall. intros z Hz.
      apply (Permutation_in _ (Permutation_sym (insert_by_key_perm x l))) in Hz.
      destruct Hz as [<-|Hz].
      * unfold key_le. now apply str_ltb_asym.
      * rewrite Forall_forall in Hall. now apply Hall.
    + constructor; [exact Hs|].
      constructor; [exact E|].
      rewrite Forall_forall in Hall |- *. intros z Hz.
      apply (key_le_trans x y z); [exact E | now apply Hall].
Qed.

Lemma sort_decorated_sorted (l : list (pystr * entry)) :
  StronglySorted key_le (fold_right insert_by_key [] l).
Proof.
  induction l as [|x l IH]; cbn [fold_right]; [constructor|].
  now apply insert_by_key_sorted.
Qed.

Lemma undecorate_sorted lower (l : list (pystr * entry)) :
  Forall (fun x => fst x = lower (get (value (snd x)) [])) l ->
  StronglySorted key_le l -> sorted_by_pattern lower (map snd l).
Proof.
  unfold sorted_by_pattern.
  induction l as [|x l IH]; intros Hk Hs; cbn [map]; [constructor|].
  inversion Hk as [|? ? Hx Hl]; subst. inversion Hs as [|? ? Hs' Hall]; subst.
  constructor; [now apply IH|].
  rewrite Forall_forall in Hall, Hl |- *. intros e He.
  apply in_map_iff in He as [y [<- Hy]].
  unfold entry_le. rewrite <- Hx, <- (Hl y Hy). now apply Hall.
Qed.

(** [list.sort] on entries that all carry a pattern: a sorted rearrangement. *)
Lemma sort_entries_wf lower (es : list entry) :
  well_formed es ->
  exists sorted,
    sort_entries lower es = Ret sorted /\
    Permutation es sorted /\
    sorted_by_pattern lower sorted.
Proof.
  intros Hwf. unfold sort_entries. rewrite (decorate_wf lower es Hwf).
  cbn [bind]. eexists. split; [reflexivity|]. split.
  - set (dec := map (fun e => (lower (get (value e) []), e)) es).
    replace es with (map snd dec) at 1.
    + apply Permutation_map. apply sort_decorated_perm.
    + unfold dec. rewrite map_map. cbn [snd]. apply map_id.
  - apply undecorate_sorted; [|apply sort_decorated_sorted].
    eapply Permutation_Forall; [apply sort_decorated_perm|].
    rewrite Forall_forall. intros x Hx.
    apply in_map_iff in Hx as [e [<- _]]. reflexivity.
Qed.

Lemma key_is_false_neq (p : pystr) (r : bool) (e : entry) :
  key_is p r e = false <-> key e <> (Some p, Some r).
Proof.
  split.
  - intros H E. apply key_is_key in E. congruence.
  - intros H. destruct (key_is p r e) eqn:E; [|reflexivity].
    apply key_is_key in E. contradiction.
Qed.

(** The search loop of [update_entry] on entries that carry both keys:
    it stops at the first entry with the key of [old]. *)
Lemma find_index_wf (es : list entry) (old : entry) (p : pystr) (r : bool) :
  well_formed es -> key old = (Some p, Some r) ->
  forall k,
    (exists l1 a l2,
        es = l1 ++ a :: l2 /\ key_is p r a = true /\
        Forall (fun x => key_is p r x = false) l1 /\
        find_index es old k = Ret (Some (k + length l1))) \/
    (Forall (fun x => key_is p r x = false) es /\
     find_index es old k = Ret None).
Proof.
  intros Hwf Hold. unfold key in Hold. inversion Hold as [[Hv Hr]].
  induction Hwf as [|d es Hd Hes IH]; intros k.
  - right. split; [constructor | reflexivity].
  - assert (Hstep : find_index (d :: es) old k
                    = if key_is p r d then Ret (Some k)
                      else find_index es old (S k)).
    { cbn [find_index]. unfold key_is. unfold complete in Hd.
      destruct (value d) as [v|]; [|discriminate].
      destruct (is_regex d) as [b|]; [|discriminate].
      rewrite Hv, Hr. cbn [item bind].
      destruct (str_eqb v p); cbn [andb]; [|reflexivity].
      now destruct (Bool.eqb b r). }
    destruct (key_is p r d) eqn:Ed.
    + left. exists [], d, es. repeat split; try assumption; [constructor|].
      rewrite Hstep. cbn [length]. now rewrite Nat.add_0_r.
    + destruct (IH (S k)) as [[l1 [a [l2 [E [Ha [Hl1 Hf]]]]]]|[Hall Hf]].
      * left. exists (d :: l1), a, l2. repeat split.
        -- now rewrite E.
        -- exact Ha.
        -- now constructor.
        -- rewrite Hstep, Hf. cbn [length]. now rewrite Nat.add_succ_r.
      * right. split; [now constructor | now rewrite Hstep].
Qed.

(** Whatever the entries are, the loop finds an index only at an entry that
    has the key of [old]. *)
Lemma find_index_found (es : list entry) (old : entry) :
  forall k i, find_index es old k = Ret (Some i) ->
              exists d, In d es /\ key d = key old.
Proof.
  induction es as [|d es IH]; intros k i H; [discriminate|].
  cbn [find_index] in H. unfold key.
  destruct (value d) as [v|] eqn:Ev; [|discriminate].
  destruct (value old) as [v0|] eqn:Ev0; [|discriminate].
  cbn [item bind] in H.
  destruct (str_eqb v v0) eqn:Es.
  - destruct (is_regex d) as [b|] eqn:Eb; [|discriminate].
    destruct (is_regex old) as [b0|] eqn:Eb0; [|discriminate].
    cbn [item bind] in H.
    destruct (Bool.eqb b b0) eqn:Ebb.
    + exists d. split; [now left|].
      apply str_eqb_eq in Es. apply eqb_prop in Ebb. subst.
      unfold key. now rewrite Ev, Eb.
    + destruct (IH _ _ H) as [d' [Hin Hk]]. exists d'. split; [now right|].
      unfold key in Hk. now rewrite Hk, Ev0, Eb0.
  - destruct (IH _ _ H) as [d' [Hin Hk]]. exists d'. split; [now right|].
    unfold key in Hk. rewrite Hk, Ev0. reflexivity.
Qed.

Lemma collides_past (es : list entry) (p : pystr) (r : bool) (index : nat) :
  well_formed es ->
  forall k, index < k ->
    collides es p r index k = Ret (existsb (key_is p r) es).
Proof.
  induction 1 as [|d es Hd Hes IH]; intros k Hk; [reflexivity|].
  cbn [collides existsb]. unfold key_is at 1. unfold complete in Hd.
  destruct (value d) as [v|]; [|discriminate].
  destruct (is_regex d) as [b|]; [|discriminate].
  cbn [item bind].
  assert (Hne : Nat.eqb k index = false) by (apply Nat.eqb_neq; lia).
  rewrite Hne. cbn [negb]. rewrite andb_true_r.
  destruct (str_eqb v p); cbn [andb orb]; [|now apply IH; lia].
  destruct (Bool.eqb b r); cbn [orb]; [reflexivity | apply IH; lia].
Qed.

(** The collision test of [update_entry]: some entry other than the one at
    [index] carries the new key. *)
Lemma collides_wf (l1 : list entry) (a : entry) (l2 : list entry)
  (p : pystr) (r : bool) :
  well_formed (l1 ++ a :: l2) ->
  forall k,
    collides (l1 ++ a :: l2) p r (k + length l1) k
    = Ret (existsb (key_is p r) (l1 ++ l2)).
Proof.
  induction l1 as [|x l1 IH]; intros Hwf k.
  - cbn [app length] in *. rewrite Nat.add_0_r.
    inversion Hwf as [|? ? Ha Hl2]; subst.
    cbn [collides]. unfold complete in Ha.
    destruct (value a) as [v|]; [|discriminate].
    destruct (is_regex a) as [b|]; [|discriminate].
    cbn [item bind]. rewrite Nat.eqb_refl. cbn [negb]. rewrite andb_false_r.
    destruct (str_eqb v p); apply collides_past; try assumption; lia.
  - cbn [app length] in *.
    inversion Hwf as [|? ? Hx Hrest]; subst.
    cbn [collides existsb]. unfold key_is at 1. unfold complete in Hx.
    destruct (value x) as [v|]; [|discriminate].
    destruct (is_regex x) as [b|]; [|discriminate].
    cbn [item bind].
    assert (Hne : Nat.eqb k (k + S (length l1)) = false)
      by (apply Nat.eqb_neq; lia).
    rewrite Hne. cbn [negb]. rewrite andb_true_r.
    replace (k + S (length l1)) with (S k + length l1) by lia.
    destruct (str_eqb v p); cbn [andb orb]; [|now apply IH].
    destruct (Bool.eqb b r); cbn [orb]; [reflexivity | now apply IH].
Qed.

Lemma pop_middle (l1 : list entry) (a : entry) (l2 : list entry) :
  pop (l1 ++ a :: l2) (length l1) = l1 ++ l2.
Proof. induction l1 as [|x l1 IH]; cbn; [reflexivity | now rewrite IH]. Qed.

Lemma set_item_middle (l1 : list entry) (a : entry) (l2 : list entry) (e : entry) :
  set_item (l1 ++ a :: l2) (length l1) e = l1 ++ e :: l2.
Proof. induction l1 as [|x l1 IH]; cbn; [reflexivity | now rewrite IH]. Qed.

(** What [update_entry] does on a rule set whose entries carry both keys. *)
Lemma update_entry_wf lower (c : SanamLuangConfig) (d : disk) (old : entry)
  (p0 : pystr) (r0 : bool) (p : pystr) (r : bool) :
  well_formed (entries c) -> key old = (Some p0, Some r0) ->
  (Forall (fun x => key_is p0 r0 x = false) (entries c) /\
   forall repl, update_entry lower (c, d) old p r repl = ((c, d), false)) \/
  (exists l1 a l2,
      entries c = l1 ++ a :: l2 /\ key_is p0 r0 a = true /\
      Forall (fun x => key_is p0 r0 x = false) l1 /\
      forall repl,
        let es' := if existsb (key_is p r) (l1 ++ l2) then l1 ++ l2
                   else l1 ++ rule p r repl :: l2 in
        exists sorted,
          well_formed es' /\ sort_entries lower es' = Ret sorted /\
          Permutation es' sorted /\ sorted_by_pattern lower sorted /\
          update_entry lower (c, d) old p r repl
          = save_config (mkConfig sorted (enabled c), d)).
Proof.
  intros Hwf Hold.
  destruct (find_index_wf (entries c) old p0 r0 Hwf Hold 0)
    as [[l1 [a [l2 [E [Ha [Hl1 Hf]]]]]]|[Hall Hf]].
  - right. exists l1, a, l2. repeat split; try assumption.
    intros repl es'.
    assert (Hwf' : well_formed es').
    { rewrite E in Hwf. apply well_formed_app in Hwf as [H1 H2].
      inversion H2 as [|? ? _ H2']; subst.
      unfold es'. destruct (existsb (key_is p r) (l1 ++ l2)).
      - apply well_formed_app. now split.
      - apply well_formed_app. split; [assumption|].
        constructor; [apply complete_rule | assumption]. }
    destruct (sort_entries_wf lower es' Hwf') as [sorted [Hs [Hp Hsorted]]].
    exists sorted. repeat split; try assumption.
    unfold update_entry. rewrite Hf. cbn [Nat.add].
    rewrite E. rewrite E in Hwf.
    pose proof (collides_wf l1 a l2 p r Hwf 0) as Hc.
    cbn [Nat.add] in Hc. rewrite Hc.
    rewrite pop_middle, set_item_middle. fold es'. now rewrite Hs.
  - left. split; [assumption|]. intros repl. unfold update_entry. now rewrite Hf.
Qed.

Lemma count_key_perm (p : pystr) (r : bool) (l l' : list entry) :
  Permutation l l' -> count_key p r l = count_key p r l'.
Proof.
  unfold count_key. induction 1 as [|x l l' P IH|x y l|l l' l'' P1 IH1 P2 IH2].
  - reflexivity.
  - cbn [filter]. destruct (key_is p r x); cbn [length]; now rewrite IH.
  - cbn [filter]. now destruct (key_is p r x), (key_is p r y).
  - now rewrite IH1.
Qed.

Lemma count_key_absent (p : pystr) (r : bool) (l : list entry) :
  ~ In (Some p, Some r) (map key l) -> count_key p r l = 0.
Proof.
  unfold count_key. induction l as [|x l IH]; intros H; [reflexivity|].
  cbn [filter]. cbn [map In] in H.
  destruct (key_is p r x) eqn:E.
  - apply key_is_key in E. exfalso. apply H. now left.
  - apply IH. intros Hin. apply H. now right.
Qed.

(** With unique keys a key that is present is carried by exactly one entry. *)
Lemma count_key_unique (p : pystr) (r : bool) (l : list entry) (b : entry) :
  unique_keys l -> In b l -> key b = (Some p, Some r) -> count_key p r l = 1.
Proof.
  unfold unique_keys. induction l as [|x l IH]; intros Hnd Hin Hk; [destruct Hin|].
  cbn [map] in Hnd. inversion Hnd as [|? ? Hx Hnd']; subst.
  unfold count_key. cbn [filter].
  destruct Hin as [->|Hin].
  - apply key_is_key in Hk as Hk'. rewrite Hk'. cbn [length]. f_equal.
    apply count_key_absent. now rewrite <- Hk.
  - destruct (key_is p r x) eqn:E.
    + apply key_is_key in E. exfalso. apply Hx. rewrite E, <- Hk.
      now apply in_map.
    + now apply IH.
Qed.

Lemma unique_keys_perm (l l' : list entry) :
  Permutation l l' -> unique_keys l -> unique_keys l'.
Proof.
  unfold unique_keys. intros P.
  apply Permutation_NoDup. now apply Permutation_map.
Qed.

Lemma save_config_entries (c : SanamLuangConfig) (d : disk) :
  fst (fst (save_config (c, d))) = c.
Proof. unfold save_config. now destruct (writable d). Qed.

(** A rename of [A] onto the key of another entry [B]: the first entry with
    the key of [A] is dropped, the rest is sorted and saved, whatever the new
    replacement is. *)
Lemma update_entry_collision lower (c : SanamLuangConfig) (d : disk)
  (A B : entry) (pA : pystr) (rA : bool) (pB : pystr) (rB : bool) :
  well_formed (entries c) ->
  In A (entries c) -> In B (entries c) ->
  key A = (Some pA, Some rA) -> key B = (Some pB, Some rB) ->
  key A <> key B ->
  exists l1 a l2 sorted,
    entries c = l1 ++ a :: l2 /\ key a = key A /\
    Forall (fun x => key_is pA rA x = false) l1 /\
    In B (l1 ++ l2) /\
    Permutation (l1 ++ l2) sorted /\ sorted_by_pattern lower sorted /\
    forall repl,
      update_entry lower (c, d) A pB rB repl
      = save_config (mkConfig sorted (enabled c), d).
Proof.
  intros Hwf HA HB HkA HkB Hne.
  destruct (update_entry_wf lower c d A pA rA pB rB Hwf HkA)
    as [[Hall _]|[l1 [a [l2 [E [Ha [Hl1 Hupd]]]]]]].
  - exfalso. rewrite Forall_forall in Hall. specialize (Hall A HA).
    apply key_is_false_neq in Hall. contradiction.
  - apply key_is_key in Ha.
    assert (HB' : In B (l1 ++ l2)).
    { rewrite E in HB. apply in_app_or in HB as [HB|[HB|HB]].
      - apply in_or_app. now left.
      - subst. congruence.
      - apply in_or_app. now right. }
    assert (Hex : existsb (key_is pB rB) (l1 ++ l2) = true).
    { apply existsb_exists. exists B. split; [assumption|].
      now apply key_is_key. }
    cbv zeta in Hupd. rewrite Hex in Hupd.
    destruct (Hupd []) as [sorted [_ [Hsort [Hp [Hs _]]]]].
    exists l1, a, l2, sorted. repeat split; try assumption; try congruence.
    intros repl. destruct (Hupd repl) as [sorted' [_ [Hsort' [_ [_ Hu]]]]].
    rewrite Hu. congruence.
Qed.

(** ** The rule store: properties *)

(** C4.  On a rule set whose entries carry both keys, [add_entry] with a
    [(pattern, isRegex)] key that an entry already has returns [False] and
    leaves entries, flag and file as they are; so an [add_entry] that
    returned is followed by a second [add_entry] of the same key that
    returns [False] and changes nothing. *)
Theorem C4_add_existing_key :
  forall lower (c : SanamLuangConfig) (d : disk) (p : pystr) (r : bool)
         (repl : pystr),
    well_formed (entries c) ->
    ((exists e, In e (entries c) /\ key e = (Some p, Some r)) ->
     add_entry lower (c, d) p r repl = ((c, d), Ret false)) /\
    (forall s1 b repl',
        add_entry lower (c, d) p r repl = (s1, Ret b) ->
        add_entry lower s1 p r repl' = (s1, Ret false) /\
        length (entries (fst (fst (add_entry lower s1 p r repl'))))
        = length (entries (fst s1))).
Proof.
  intros lower c d p r repl Hwf.
  assert (Hdup : forall c0 d0 repl0,
             well_formed (entries c0) ->
             (exists e, In e (entries c0) /\ key e = (Some p, Some r)) ->
             add_entry lower (c0, d0) p r repl0 = ((c0, d0), Ret false)).
  { intros c0 d0 repl0 Hwf0 [e [Hin Hk]].
    unfold add_entry. rewrite (has_key_wf (entries c0) p r Hwf0).
    assert (Hex : existsb (key_is p r) (entries c0) = true).
    { apply existsb_exists. exists e. split; [assumption | now apply key_is_key]. }
    now rewrite Hex. }
  split; [now apply Hdup|].
  intros s1 b repl' Hadd.
  assert (Hsecond : add_entry lower s1 p r repl' = (s1, Ret false)).
  { unfold add_entry in Hadd. rewrite (has_key_wf (entries c) p r Hwf) in Hadd.
    destruct (existsb (key_is p r) (entries c)) eqn:Hex.
    - inversion Hadd; subst. apply Hdup; [assumption|].
      apply existsb_exists in Hex as [e [Hin Hk]].
      exists e. split; [assumption | now apply key_is_key].
    - assert (Hwf' : well_formed (entries c ++ [rule p r repl])).
      { apply well_formed_app. split; [assumption|].
        constructor; [apply complete_rule | constructor]. }
      destruct (sort_entries_wf lower _ Hwf') as [sorted [Hs [Hp _]]].
      rewrite Hs in Hadd.
      pose proof (save_config_entries (mkConfig sorted (enabled c)) d) as Hsave.
      destruct (save_config (mkConfig sorted (enabled c), d)) as [[c1 d1] ok].
      cbn [fst] in Hsave. inversion Hadd; subst. apply Hdup.
      + cbn [entries]. exact (well_formed_perm _ _ Hp Hwf').
      + exists (rule p r repl). split; [|reflexivity]. cbn [entries].
        apply (Permutation_in _ Hp). apply in_or_app. right. now left. }
  split; [exact Hsecond | now rewrite Hsecond].
Qed.

(** [add_entry("foo", False, "bar")] on a store that holds that rule. *)
Lemma C4_add_existing_key_witness :
  let d := mkDisk Absent Absent true in
  let c := mkConfig [rule (lit "foo") false (lit "bar")] true in
  add_entry ascii_lower (c, d) (lit "foo") false (lit "bar")
  = ((c, d), Ret false).
Proof.
  cbv zeta.
  refine (proj1 (C4_add_existing_key ascii_lower _ _ (lit "foo") false (lit "bar") _) _).
  - repeat constructor.
  - eexists. split; [left; reflexivity | reflexivity].
Defined.

(** C5.  On a rule set with unique keys whose entries carry both keys,
    [update_entry] that renames an entry [A] to the key of another entry [B]
    removes [A] and leaves exactly one entry with that key, [B]; every
    [update_entry] keeps the keys unique; and when no entry has the key of
    the old rule, [update_entry] changes nothing and returns [False]. *)
Theorem C5_update_collision_drops_original :
  forall lower (c : SanamLuangConfig) (d : disk),
    (forall (A B : entry) pA rA pB rB repl,
        well_formed (entries c) -> unique_keys (entries c) ->
        In A (entries c) -> In B (entries c) ->
        key A = (Some pA, Some rA) -> key B = (Some pB, Some rB) ->
        key A <> key B ->
        let es' := entries (fst (fst (update_entry lower (c, d) A pB rB repl))) in
        ~ In A es' /\ count_key pA rA es' = 0 /\
        In B es' /\ count_key pB rB es' = 1 /\
        S (length es') = length (entries c)) /\
    (forall (old : entry) p r repl,
        well_formed (entries c) -> unique_keys (entries c) ->
        unique_keys (entries (fst (fst (update_entry lower (c, d) old p r repl))))) /\
    (forall (old : entry) p r repl,
        (forall e, In e (entries c) -> key e <> key old) ->
        update_entry lower (c, d) old p r repl = ((c, d), false)).
Proof.
  intros lower c d. split; [|split].
  - intros A B pA rA pB rB repl Hwf Hu HA HB HkA HkB Hne es'.
    destruct (update_entry_collision lower c d A B pA rA pB rB
                Hwf HA HB HkA HkB Hne)
      as [l1 [a [l2 [sorted [E [Hka [Hl1 [HB' [Hp [_ Hupd]]]]]]]]]].
    assert (Hes' : es' = sorted).
    { unfold es'. rewrite Hupd, save_config_entries. reflexivity. }
    rewrite Hes'. clear es' Hes'.
    unfold unique_keys in Hu. rewrite E, map_app in Hu. cbn [map] in Hu.
    assert (Habs : ~ In (Some pA, Some rA) (map key (l1 ++ l2))).
    { rewrite map_app, <- HkA, <- Hka. now apply NoDup_remove_2. }
    assert (Hu' : unique_keys (l1 ++ l2)).
    { unfold unique_keys. rewrite map_app. now apply NoDup_remove_1 in Hu. }
    repeat split.
    + intros Hin. apply Habs. rewrite <- HkA. apply in_map.
      now apply (Permutation_in _ (Permutation_sym Hp)).
    + rewrite <- (count_key_perm pA rA _ _ Hp). now apply count_key_absent.
    + now apply (Permutation_in _ Hp).
    + rewrite <- (count_key_perm pB rB _ _ Hp).
      now apply (count_key_unique pB rB _ B).
    + rewrite <- (Permutation_length Hp), E, !length_app. cbn [length]. lia.
  - intros old p r repl Hwf Hu.
    destruct (find_index (entries c) old 0) as [[i|]|e] eqn:Ef.
    + destruct (find_index_found _ _ _ _ Ef) as [x [Hx Hkx]].
      assert (Hold : exists p0 r0, key old = (Some p0, Some r0)).
      { unfold well_formed in Hwf. rewrite Forall_forall in Hwf.
        specialize (Hwf x Hx). unfold complete in Hwf. rewrite <- Hkx.
        unfold key. destruct (value x) as [v|]; [|discriminate].
        destruct (is_regex x) as [b|]; [|discriminate]. now exists v, b. }
      destruct Hold as [p0 [r0 Hold]].
      destruct (update_entry_wf lower c d old p0 r0 p r Hwf Hold)
        as [[_ Hupd]|[l1 [a [l2 [E [Ha [Hl1 Hupd]]]]]]].
      * now rewrite Hupd.
      * destruct (Hupd repl) as [sorted [_ [_ [Hp [_ Hu']]]]].
        rewrite Hu', save_config_entries. cbn [entries].
        apply (unique_keys_perm _ _ Hp).
        unfold unique_keys in Hu |- *. rewrite E, map_app in Hu. cbn [map] in Hu.
        destruct (existsb (key_is p r) (l1 ++ l2)) eqn:Hex.
        -- rewrite map_app. now apply NoDup_remove_1 in Hu.
        -- rewrite map_app. cbn [map].
           apply (Permutation_NoDup (Permutation_middle _ _ _)).
           constructor; [|now apply NoDup_remove_1 in Hu].
           rewrite <- map_app. intros Hin. apply in_map_iff in Hin as [y [Hky Hy]].
           assert (Hy' : key_is p r y = true) by now apply key_is_key.
           assert (existsb (key_is p r) (l1 ++ l2) = true)
             by (apply existsb_exists; now exists y).
           congruence.
    + unfold update_entry. now rewrite Ef.
    + unfold update_entry. now rewrite Ef.
  - intros old p r repl Hnone. unfold update_entry.
    destruct (find_index (entries c) old 0) as [[i|]|e] eqn:Ef; try reflexivity.
    destruct (find_index_found _ _ _ _ Ef) as [x [Hx Hkx]].
    exfalso. exact (Hnone x Hx Hkx).
Qed.

(** The store [x -> 1; y -> 2]: renaming x to y, and updating the absent z. *)
Lemma C5_update_collision_drops_original_witness :
  let A := rule (lit "x") false (lit "1") in
  let B := rule (lit "y") false (lit "2") in
  let c := mkConfig [A; B] true in
  let d := mkDisk Absent Absent true in
  let es' := entries (fst (fst (update_entry ascii_lower (c, d) A
                                  (lit "y") false (lit "3")))) in
  (~ In A es' /\ count_key (lit "x") false es' = 0 /\
   In B es' /\ count_key (lit "y") false es' = 1 /\
   S (length es') = length (entries c)) /\
  unique_keys es' /\
  update_entry ascii_lower (c, d) (rule (lit "z") false []) (lit "y") false []
  = ((c, d), false).
Proof.
  cbv zeta.
  pose proof (C5_update_collision_drops_original ascii_lower
    (mkConfig [rule (lit "x") false (lit "1"); rule (lit "y") false (lit "2")] true)
    (mkDisk Absent Absent true)) as [Hcol [Huniq Hnone]].
  assert (Hwf : well_formed
                  [rule (lit "x") false (lit "1"); rule (lit "y") false (lit "2")])
    by (repeat constructor).
  assert (Hu : unique_keys
                 [rule (lit "x") false (lit "1"); rule (lit "y") false (lit "2")]).
  { unfold unique_keys. cbn [map]. constructor.
    - intros [H|[]]. discriminate H.
    - constructor; [intros [] | constructor]. }
  split; [|split].
  - apply (Hcol _ _ (lit "x") false (lit "y") false (lit "3") Hwf Hu).
    + now left.
    + right. now left.
    + reflexivity.
    + reflexivity.
    + discriminate.
  - apply (Huniq _ _ _ _ Hwf Hu).
  - apply Hnone. intros e [<-|[<-|[]]]; discriminate.
Defined.

(** C10.  When [update_entry] renames an entry [A] onto the key of another
    entry [B], [B] is in the resulting rule set as it was, replacement
    included; every resulting entry is an entry of the old rule set; and the
    result is the same for every new replacement. *)
Theorem C10_collision_keeps_survivor :
  forall lower (c : SanamLuangConfig) (d : disk)
         (A B : entry) pA rA pB rB repl,
    well_formed (entries c) ->
    In A (entries c) -> In B (entries c) ->
    key A = (Some pA, Some rA) -> key B = (Some pB, Some rB) ->
    key A <> key B ->
    let s' := update_entry lower (c, d) A pB rB repl in
    In B (entries (fst (fst s'))) /\
    (forall e, In e (entries (fst (fst s'))) -> In e (entries c)) /\
    (forall e, In e (entries (fst (fst s'))) -> key e = key B ->
               In e (entries c) /\ key e <> key A) /\
    (forall repl', update_entry lower (c, d) A pB rB repl' = s').
Proof.
  intros lower c d A B pA rA pB rB repl Hwf HA HB HkA HkB Hne s'.
  destruct (update_entry_collision lower c d A B pA rA pB rB
              Hwf HA HB HkA HkB Hne)
    as [l1 [a [l2 [sorted [E [Hka [Hl1 [HB' [Hp [_ Hupd]]]]]]]]]].
  assert (Hes' : entries (fst (fst s')) = sorted).
  { unfold s'. rewrite Hupd, save_config_entries. reflexivity. }
  assert (Hincl : forall e, In e sorted -> In e (entries c)).
  { intros e He. apply (Permutation_in _ (Permutation_sym Hp)) in He.
    rewrite E. apply in_app_or in He as [He|He]; apply in_or_app;
      [now left | right; now right]. }
  rewrite Hes'. repeat split.
  - now apply (Permutation_in _ Hp).
  - exact Hincl.
  - now apply Hincl.
  - congruence.
  - intros repl'. unfold s'. now rewrite !Hupd.
Qed.

(** The store [x -> 1; y -> 2]: renaming x to y with the replacement 3. *)
Lemma C10_collision_keeps_survivor_witness :
  let A := rule (lit "x") false (lit "1") in
  let B := rule (lit "y") false (lit "2") in
  let c := mkConfig [A; B] true in
  let d := mkDisk Absent Absent true in
  In B (entries (fst (fst (update_entry ascii_lower (c, d) A
                             (lit "y") false (lit "3"))))).
Proof.
  cbv zeta.
  refine (proj1 (C10_collision_keeps_survivor ascii_lower
    (mkConfig [rule (lit "x") false (lit "1"); rule (lit "y") false (lit "2")] true)
    (mkDisk Absent Absent true)
    (rule (lit "x") false (lit "1")) (rule (lit "y") false (lit "2"))
    (lit "x") false (lit "y") false (lit "3") _ _ _ _ _ _)).
  - repeat constructor.
  - now left.
  - right. now left.
  - reflexivity.
  - reflexivity.
  - discriminate.
Defined.

Lemma list_remove_incl (es : list entry) (e : entry) (es' : list entry) :
  list_remove es e = Ret es' -> incl es' es.
Proof.
  revert es'. induction es as [|x es IH]; intros es' H; [discriminate|].
  cbn [list_remove] in H. destruct (entry_eqb x e).
  - inversion H; subst. intros y Hy. now right.
  - destruct (list_remove es e) as [rest|]; [|discriminate].
    inversion H; subst. intros y [<-|Hy]; [now left|].
    right. now apply (IH rest).
Qed.

(** [list.remove] keeps a sorted list sorted. *)
Lemma list_remove_sorted lower (es : list entry) (e : entry) (es' : list entry) :
  sorted_by_pattern lower es -> list_remove es e = Ret es' ->
  sorted_by_pattern lower es'.
Proof.
  unfold sorted_by_pattern. revert es'.
  induction es as [|x es IH]; intros es' Hs H; [discriminate|].
  inversion Hs as [|? ? Hs' Hall]; subst.
  cbn [list_remove] in H. destruct (entry_eqb x e).
  - now inversion H; subst.
  - destruct (list_remove es e) as [rest|] eqn:Er; [|discriminate].
    inversion H; subst. constructor; [now apply IH|].
    rewrite Forall_forall in Hall |- *. intros y Hy.
    apply Hall. exact (list_remove_incl es e rest Er y Hy).
Qed.

(** C7, at a failing input.  With a bundled dictionary that lists "b" before
    "a", [reset_to_defaults] succeeds on a store whose entry list is sorted
    and leaves the entry list ["b"; "a"], which is not sorted. *)
Lemma C7_reset_leaves_unsorted :
  let d := mkDisk Absent
             (Parsed (DictList [ItemStr (lit "b"); ItemStr (lit "a")])) true in
  let c := mkConfig [] true in
  sorted_by_pattern ascii_lower (entries c) /\
  snd (reset_to_defaults (c, d)) = true /\
  entries (fst (fst (reset_to_defaults (c, d))))
  = [rule (lit "b") false []; rule (lit "a") false []] /\
  ~ sorted_by_pattern ascii_lower (entries (fst (fst (reset_to_defaults (c, d))))).
Proof.
  cbv zeta. repeat split.
  - constructor.
  - intros H. cbn in H. inversion H as [|? ? _ Hall]; subst.
    inversion Hall as [|? ? Hle _]; subst. discriminate Hle.
Qed.

(** C7, amended.  On a rule set whose entries carry both keys: after an
    [add_entry] of a new key the entry list is the old one with the new rule,
    sorted by lower-cased pattern; after an [update_entry] of a key that is
    present the entry list is sorted; [add_entry], [update_entry] and
    [remove_entry] keep a sorted entry list sorted; [reset_to_defaults]
    installs the default dictionary in the order in which it is stored. *)
Theorem C7_sorted_after_add_update :
  forall lower (c : SanamLuangConfig) (d : disk),
    well_formed (entries c) ->
    (forall p r repl,
        (forall e, In e (entries c) -> key e <> (Some p, Some r)) ->
        let es' := entries (fst (fst (add_entry lower (c, d) p r repl))) in
        Permutation (entries c ++ [rule p r repl]) es' /\
        sorted_by_pattern lower es') /\
    (forall old p r repl,
        (exists e, In e (entries c) /\ key e = key old) ->
        sorted_by_pattern lower
          (entries (fst (fst (update_entry lower (c, d) old p r repl))))) /\
    (sorted_by_pattern lower (entries c) ->
     (forall p r repl,
         sorted_by_pattern lower
           (entries (fst (fst (add_entry lower (c, d) p r repl))))) /\
     (forall old p r repl,
         sorted_by_pattern lower
           (entries (fst (fst (update_entry lower (c, d) old p r repl))))) /\
     (forall e,
         sorted_by_pattern lower
           (entries (fst (fst (remove_entry (c, d) e)))))) /\
    entries (fst (fst (reset_to_defaults (c, d)))) = load_default_dictionary d.
Proof.
  intros lower c d Hwf.
  assert (Hadd : forall p r repl,
             existsb (key_is p r) (entries c) = false ->
             let es' := entries (fst (fst (add_entry lower (c, d) p r repl))) in
             Permutation (entries c ++ [rule p r repl]) es' /\
             sorted_by_pattern lower es').
  { intros p r repl Hex es'. unfold es', add_entry.
    rewrite (has_key_wf (entries c) p r Hwf), Hex.
    assert (Hwf' : well_formed (entries c ++ [rule p r repl])).
    { apply well_formed_app. split; [assumption|].
      constructor; [apply complete_rule | constructor]. }
    destruct (sort_entries_wf lower _ Hwf') as [sorted [Hs [Hp Hsorted]]].
    rewrite Hs.
    pose proof (save_config_entries (mkConfig sorted (enabled c)) d) as Hsave.
    destruct (save_config (mkConfig sorted (enabled c), d)) as [[c1 d1] ok].
    cbn [fst] in *. subst c1. cbn [entries]. now split. }
  assert (Hupd : forall old p r repl p0 r0,
             key old = (Some p0, Some r0) ->
             existsb (key_is p0 r0) (entries c) = true ->
             sorted_by_pattern lower
               (entries (fst (fst (update_entry lower (c, d) old p r repl))))).
  { intros old p r repl p0 r0 Hold Hex.
    destruct (update_entry_wf lower c d old p0 r0 p r Hwf Hold)
      as [[Hall _]|[l1 [a [l2 [E [Ha [Hl1 Hu]]]]]]].
    - apply existsb_exists in Hex as [x [Hx Hkx]].
      rewrite Forall_forall in Hall. specialize (Hall x Hx). congruence.
    - destruct (Hu repl) as [sorted [_ [_ [_ [Hsorted Hu']]]]].
      now rewrite Hu', save_config_entries. }
  split; [|split; [|split]].
  - intros p r repl Hnew. apply Hadd.
    destruct (existsb (key_is p r) (entries c)) eqn:Hex; [|reflexivity].
    apply existsb_exists in Hex as [x [Hx Hkx]]. apply key_is_key in Hkx.
    exfalso. exact (Hnew x Hx Hkx).
  - intros old p r repl [x [Hx Hkx]].
    assert (Hold : exists p0 r0, key old = (Some p0, Some r0)).
    { unfold well_formed in Hwf. rewrite Forall_forall in Hwf.
      specialize (Hwf x Hx). unfold complete in Hwf. rewrite <- Hkx.
      unfold key. destruct (value x) as [v|]; [|discriminate].
      destruct (is_regex x) as [b|]; [|discriminate]. now exists v, b. }
    destruct Hold as [p0 [r0 Hold]]. apply (Hupd old p r repl p0 r0 Hold).
    apply existsb_exists. exists x. split; [assumption|].
    apply key_is_key. congruence.
  - intros Hsorted. split; [|split].
    + intros p r repl.
      destruct (existsb (key_is p r) (entries c)) eqn:Hex.
      * unfold add_entry. rewrite (has_key_wf (entries c) p r Hwf), Hex.
        exact Hsorted.
      * now apply Hadd.
    + intros old p r repl.
      destruct (find_index (entries c) old 0) as [[i|]|e] eqn:Ef.
      * destruct (find_index_found _ _ _ _ Ef) as [x [Hx Hkx]].
        assert (Hold : exists p0 r0, key old = (Some p0, Some r0)).
        { unfold well_formed in Hwf. rewrite Forall_forall in Hwf.
          specialize (Hwf x Hx). unfold complete in Hwf. rewrite <- Hkx.
          unfold key. destruct (value x) as [v|]; [|discriminate].
          destruct (is_regex x) as [b|]; [|discriminate]. now exists v, b. }
        destruct Hold as [p0 [r0 Hold]]. apply (Hupd old p r repl p0 r0 Hold).
        apply existsb_exists. exists x. split; [assumption|].
        apply key_is_key. congruence.
      * unfold update_entry. now rewrite Ef.
      * unfold update_entry. now rewrite Ef.
    + intros e. unfold remove_entry.
      destruct (list_remove (entries c) e) as [es|] eqn:Er; [|exact Hsorted].
      rewrite save_config_entries. cbn [entries].
      exact (list_remove_sorted lower _ e es Hsorted Er).
  - unfold reset_to_defaults. now rewrite save_config_entries.
Qed.

(** The store [b -> 1]: adding "A", renaming "b" to "C", removing "b". *)
Lemma C7_sorted_after_add_update_witness :
  let c := mkConfig [rule (lit "b") false (lit "1")] true in
  let d := mkDisk Absent Absent true in
  sorted_by_pattern ascii_lower
    (entries (fst (fst (add_entry ascii_lower (c, d) (lit "A") false (lit "2"))))) /\
  sorted_by_pattern ascii_lower
    (entries (fst (fst (update_entry ascii_lower (c, d)
                          (rule (lit "b") false (lit "1")) (lit "C") true []))))
  /\
  sorted_by_pattern ascii_lower
    (entries (fst (fst (remove_entry (c, d) (rule (lit "b") false (lit "1")))))).
Proof.
  cbv zeta.
  pose proof (C7_sorted_after_add_update ascii_lower
    (mkConfig [rule (lit "b") false (lit "1")] true) (mkDisk Absent Absent true))
    as H.
  destruct H as [Hadd [Hupd [Hinv _]]]; [repeat constructor|].
  split; [|split].
  - apply Hadd. intros e [<-|[]]. discriminate.
  - apply Hupd. eexists. split; [left; reflexivity | reflexivity].
  - apply Hinv. repeat constructor.
Defined.

(** ** Loading: properties *)

(** C6, at failing inputs.  A record that does not parse is left on disk as
    it is, the fallback is not written; and with a bundled dictionary that
    is the empty list and no record, the loaded rule set is empty. *)
Lemma C6_fallback_not_always_persisted_or_nonempty :
  (let d := mkDisk Unparseable Absent true in
   entries (fst (init d)) = builtin_entries /\
   config_file (snd (init d)) = Unparseable) /\
  (let d := mkDisk Absent (Parsed (DictList [])) true in
   entries (fst (init d)) = []).
Proof. repeat split. Qed.

(** C6, amended.  When the record is absent or does not parse, loading
    gives the default dictionary with the add-on enabled; the rule set is
    the six built-in rules when the bundled dictionary is absent or does
    not parse; when the record is absent and the file can be written, the
    fallback is written at once in the current schema; and a second load
    gives the identical rule set and flag. *)
Theorem C6_load_falls_back_to_defaults :
  forall (d : disk),
    config_file d = Absent \/ config_file d = Unparseable ->
    let c := fst (init d) in
    let d' := snd (init d) in
    entries c = load_default_dictionary d /\
    enabled c = true /\
    (default_dict d = Absent \/ default_dict d = Unparseable ->
     entries c = builtin_entries /\ length (entries c) = 6) /\
    (config_file d = Absent -> writable d = true ->
     config_file d'
     = Parsed (DocDict (Some (entries c)) (Some true) (Some version_1_1))) /\
    fst (init d') = c.
Proof.
  intros d Hfile c d'.
  assert (Hbuiltin : forall cf0 dd0 w0,
             dd0 = Absent \/ dd0 = Unparseable ->
             load_default_dictionary (mkDisk cf0 dd0 w0) = builtin_entries).
  { intros cf0 dd0 w0 [H|H]; now rewrite H. }
  destruct d as [cf dd w]. cbn [config_file] in Hfile.
  unfold c, d', init, load_config. clear c d'.
  destruct Hfile as [-> | ->]; cbn [config_file].
  - unfold save_config. cbn [writable].
    destruct w;
      cbn [fst snd entries enabled config_file with_config_file
           default_dict writable get].
    + split; [reflexivity|]. split; [reflexivity|]. split; [|split].
      * intros Hd. rewrite (Hbuiltin _ _ _ Hd). now split.
      * intros _ _. reflexivity.
      * reflexivity.
    + split; [reflexivity|]. split; [reflexivity|]. split; [|split].
      * intros Hd. rewrite (Hbuiltin _ _ _ Hd). now split.
      * intros _ Hw. discriminate Hw.
      * reflexivity.
  - cbn [fst snd entries enabled config_file default_dict writable].
    split; [reflexivity|]. split; [reflexivity|]. split; [|split].
    + intros Hd. rewrite (Hbuiltin _ _ _ Hd). now split.
    + intros Habs. discriminate Habs.
    + reflexivity.
Qed.

(** A first start: neither the record nor the bundled dictionary exists. *)
Lemma C6_load_falls_back_to_defaults_witness :
  let d := mkDisk Absent Absent true in
  entries (fst (init d)) = builtin_entries /\
  config_file (snd (init d))
  = Parsed (DocDict (Some builtin_entries) (Some true) (Some version_1_1)) /\
  fst (init (snd (init d))) = fst (init d).
Proof.
  cbv zeta.
  pose proof (C6_load_falls_back_to_defaults (mkDisk Absent Absent true)
                (or_introl eq_refl)) as [He [_ [_ [Hsave Hagain]]]].
  split; [exact He|]. split; [|exact Hagain].
  exact (Hsave eq_refl eq_refl).
Defined.

(** ** Persistence: further properties *)

Lemma save_config_true (c : SanamLuangConfig) (d : disk) (s' : state) :
  save_config (c, d) = (s', true) -> init (snd s') = s'.
Proof.
  unfold save_config. destruct (writable d); intros H; [|discriminate].
  inversion H; subst. now destruct c.
Qed.

Lemma save_config_false (c : SanamLuangConfig) (d : disk) (s' : state) :
  save_config (c, d) = (s', false) -> s' = (c, d).
Proof.
  unfold save_config. destruct (writable d); intros H; [discriminate|].
  now inversion H.
Qed.

(** X1.  Loading is idempotent: a second load gives the same rule set, flag
    and disk as the first, whatever is on disk; and a record that exists,
    parseable or not, is never written by loading. *)
Theorem X1_load_idempotent :
  forall (d : disk),
    init (snd (init d)) = init d /\
    (config_file d <> Absent -> snd (init d) = d).
Proof.
  intros [cf dd w]. unfold init, load_config. cbn [config_file].
  destruct cf as [| |[es en v|l|]]; cbn [snd config_file]; split;
    try reflexivity; try (intros H; now contradiction H).
  unfold save_config. cbn [writable].
  destruct w; cbn [fst snd config_file with_config_file get]; reflexivity.
Qed.

(** A legacy record, a bare list of entries. *)
Lemma X1_load_idempotent_witness :
  let d := mkDisk (Parsed (DocList [rule (lit "a") false (lit "b")])) Absent true in
  snd (init d) = d.
Proof.
  cbv zeta.
  apply (proj2 (X1_load_idempotent
    (mkDisk (Parsed (DocList [rule (lit "a") false (lit "b")])) Absent true))).
  discriminate.
Defined.

(** X2.  When [_save_config] returns [True], the record on disk is of the
    current schema, with the entries, the flag and the version "1.1", and a
    load from that disk gives back exactly the entries and the flag that
    were saved. *)
Theorem X2_save_then_load :
  forall (c : SanamLuangConfig) (d : disk),
    snd (save_config (c, d)) = true ->
    let s' := fst (save_config (c, d)) in
    init (snd s') = (c, snd s') /\
    config_file (snd s')
    = Parsed (DocDict (Some (entries c)) (Some (enabled c)) (Some (lit "1.1"))).
Proof.
  intros [es en] [cf dd w]. unfold save_config. cbn [writable].
  destruct w; cbn [fst snd]; intros H; [|discriminate H].
  split; reflexivity.
Qed.

(** Saving a disabled rule set over a record that does not parse. *)
Lemma X2_save_then_load_witness :
  let c := mkConfig [rule (lit "a") true []] false in
  let d := mkDisk Unparseable Absent true in
  init (snd (fst (save_config (c, d)))) = (c, snd (fst (save_config (c, d)))).
Proof.
  cbv zeta.
  exact (proj1 (X2_save_then_load
    (mkConfig [rule (lit "a") true []] false)
    (mkDisk Unparseable Absent true) eq_refl)).
Defined.

(** X3.  Whenever a mutating operation of the store returns [True], the
    record on disk is in step with memory: a load from that disk gives
    exactly the state the operation left. *)
Theorem X3_success_means_persisted :
  forall lower (s s' : state),
    (forall p r repl, add_entry lower s p r repl = (s', Ret true) ->
                      init (snd s') = s') /\
    (forall old p r repl, update_entry lower s old p r repl = (s', true) ->
                          init (snd s') = s') /\
    (forall e, remove_entry s e = (s', true) -> init (snd s') = s') /\
    (reset_to_defaults s = (s', true) -> init (snd s') = s') /\
    (forall b, set_enabled s b = (s', true) -> init (snd s') = s').
Proof.
  intros lower [c d] s'. split; [|split; [|split; [|split]]].
  - intros p r repl. unfold add_entry.
    destruct (has_key (entries c) p r) as [[|]|e]; try discriminate.
    destruct (sort_entries lower (entries c ++ [rule p r repl])) as [sorted|e];
      [|discriminate].
    destruct (save_config (mkConfig sorted (enabled c), d)) as [s1 ok] eqn:Es.
    intros H. inversion H; subst. exact (save_config_true _ _ _ Es).
  - intros old p r repl. unfold update_entry.
    destruct (find_index (entries c) old 0) as [[index|]|e]; try discriminate.
    destruct (collides (entries c) p r index 0) as [hit|e]; [|discriminate].
    destruct (sort_entries lower _) as [sorted|e]; [|discriminate].
    apply save_config_true.
  - intros e. unfold remove_entry.
    destruct (list_remove (entries c) e) as [es|x]; [|discriminate].
    apply save_config_true.
  - unfold reset_to_defaults. apply save_config_true.
  - intros b. unfold set_enabled. apply save_config_true.
Qed.

(** Adding "b" to an empty store on a fresh disk. *)
Lemma X3_success_means_persisted_witness :
  let s := (mkConfig [] true, mkDisk Absent Absent true) in
  let s' := fst (add_entry ascii_lower s (lit "b") false (lit "c")) in
  init (snd s') = s'.
Proof.
  cbv zeta.
  refine (proj1 (X3_success_means_persisted ascii_lower
    (mkConfig [] true, mkDisk Absent Absent true) _)
    (lit "b") false (lit "c") _).
  reflexivity.
Defined.

(** X4.  A failed write is not rolled back: on a disk that cannot be
    written, [add_entry] of a key that no entry has returns [False] and
    leaves the disk as it was, yet the rule is in the entry list in memory,
    which is sorted and one longer than before. *)
Theorem X4_failed_save_keeps_memory_change :
  forall lower (c : SanamLuangConfig) (d : disk) p r repl,
    well_formed (entries c) ->
    (forall e, In e (entries c) -> key e <> (Some p, Some r)) ->
    writable d = false ->
    let res := add_entry lower (c, d) p r repl in
    snd res = Ret false /\
    snd (fst res) = d /\
    In (rule p r repl) (entries (fst (fst res))) /\
    length (entries (fst (fst res))) = S (length (entries c)) /\
    sorted_by_pattern lower (entries (fst (fst res))).
Proof.
  intros lower c d p r repl Hwf Hnew Hw. cbv zeta. unfold add_entry.
  rewrite (has_key_wf (entries c) p r Hwf).
  assert (Hex : existsb (key_is p r) (entries c) = false).
  { destruct (existsb (key_is p r) (entries c)) eqn:Hex; [|reflexivity].
    apply existsb_exists in Hex as [x [Hx Hkx]]. apply key_is_key in Hkx.
    exfalso. exact (Hnew x Hx Hkx). }
  rewrite Hex.
  assert (Hwf' : well_formed (entries c ++ [rule p r repl])).
  { apply well_formed_app. split; [assumption|].
    constructor; [apply complete_rule | constructor]. }
  destruct (sort_entries_wf lower _ Hwf') as [sorted [Hs [Hp Hsorted]]].
  rewrite Hs. unfold save_config. rewrite Hw. cbn [fst snd entries].
  split; [reflexivity|]. split; [reflexivity|]. split; [|split].
  - apply (Permutation_in _ Hp). apply in_or_app. right. now left.
  - rewrite <- (Permutation_length Hp), length_app. cbn [length]. lia.
  - exact Hsorted.
Qed.

(** Adding "b" to the store ["a"] on a read-only disk. *)
Lemma X4_failed_save_keeps_memory_change_witness :
  let c := mkConfig [rule (lit "a") false []] true in
  let d := mkDisk Absent Absent false in
  snd (add_entry ascii_lower (c, d) (lit "b") false (lit "c")) = Ret false /\
  In (rule (lit "b") false (lit "c"))
     (entries (fst (fst (add_entry ascii_lower (c, d) (lit "b") false (lit "c"))))).
Proof.
  cbv zeta.
  pose proof (X4_failed_save_keeps_memory_change ascii_lower
    (mkConfig [rule (lit "a") false []] true) (mkDisk Absent Absent false)
    (lit "b") false (lit "c")) as H.
  destruct H as [H1 [_ [H3 _]]].
  - repeat constructor.
  - intros e [<-|[]]. discriminate.
  - reflexivity.
  - split; assumption.
Defined.

(** ** The rule store: further properties *)

Lemma entry_eqb_eq (a b : entry) : entry_eqb a b = true <-> a = b.
Proof.
  destruct a as [va ra sa], b as [vb rb sb]. unfold entry_eqb. cbn [value is_regex replacement].
  split.
  - intros H. apply andb_prop in H as [H Hs]. apply andb_prop in H as [Hv Hr].
    assert (va = vb).
    { destruct va, vb; try discriminate; [|reflexivity].
      apply str_eqb_eq in Hv. now subst. }
    assert (ra = rb).
    { destruct ra, rb; try discriminate; [|reflexivity].
      apply eqb_prop in Hr. now subst. }
    assert (sa = sb).
    { destruct sa, sb; try discriminate; [|reflexivity].
      apply str_eqb_eq in Hs. now subst. }
    now subst.
  - intros H. inversion H; subst.
    destruct vb, rb, sb; rewrite ?str_eqb_refl, ?eqb_reflx; reflexivity.
Qed.

(** [list.remove] drops the first occurrence and nothing else. *)
Lemma list_remove_first (l1 : list entry) (e : entry) (l2 : list entry) :
  ~ In e l1 -> list_remove (l1 ++ e :: l2) e = Ret (l1 ++ l2).
Proof.
  induction l1 as [|x l1 IH]; intros Hn; cbn [app list_remove].
  - assert (H : entry_eqb e e = true) by now apply entry_eqb_eq.
    now rewrite H.
  - destruct (entry_eqb x e) eqn:E.
    + apply entry_eqb_eq in E. subst. exfalso. apply Hn. now left.
    + rewrite IH; [reflexivity|]. intros Hin. apply Hn. now right.
Qed.

Lemma list_remove_absent (es : list entry) (e : entry) :
  ~ In e es -> list_remove es e = Raise ValueError.
Proof.
  induction es as [|x es IH]; intros Hn; [reflexivity|].
  cbn [list_remove]. destruct (entry_eqb x e) eqn:E.
  - apply entry_eqb_eq in E. subst. exfalso. apply Hn. now left.
  - rewrite IH; [reflexivity|]. intros Hin. apply Hn. now right.
Qed.

Lemma in_first_occurrence (e : entry) (es : list entry) :
  In e es -> exists l1 l2, es = l1 ++ e :: l2 /\ ~ In e l1.
Proof.
  induction es as [|x es IH]; intros Hin; [destruct Hin|].
  destruct (entry_eqb x e) eqn:E.
  - apply entry_eqb_eq in E. subst. exists [], es. split; [reflexivity | intros []].
  - destruct Hin as [->|Hin].
    + assert (entry_eqb e e = true) by now apply entry_eqb_eq. congruence.
    + destruct (IH Hin) as [l1 [l2 [E' Hn]]]. exists (x :: l1), l2. split.
      * now rewrite E'.
      * intros [->|H]; [|contradiction].
        assert (entry_eqb e e = true) by now apply entry_eqb_eq. congruence.
Qed.

(** X5.  [remove_entry] of an entry that is not in the rule set returns
    [False] and changes nothing; of an entry that is in it, it deletes the
    first occurrence and only that one, keeps the order of the others, and
    returns whether the write succeeded. *)
Theorem X5_remove_first_occurrence :
  forall (c : SanamLuangConfig) (d : disk) (e : entry),
    (~ In e (entries c) -> remove_entry (c, d) e = ((c, d), false)) /\
    (In e (entries c) ->
     exists l1 l2,
       entries c = l1 ++ e :: l2 /\ ~ In e l1 /\
       entries (fst (fst (remove_entry (c, d) e))) = l1 ++ l2 /\
       enabled (fst (fst (remove_entry (c, d) e))) = enabled c /\
       snd (remove_entry (c, d) e) = writable d).
Proof.
  intros c d e. split.
  - intros Hn. unfold remove_entry. now rewrite (list_remove_absent _ _ Hn).
  - intros Hin. destruct (in_first_occurrence e _ Hin) as [l1 [l2 [E Hn]]].
    exists l1, l2. split; [exact E|]. split; [exact Hn|].
    unfold remove_entry. rewrite E, (list_remove_first l1 e l2 Hn).
    unfold save_config. destruct (writable d); repeat split.
Qed.

(** Removing one of two equal entries, and removing an absent one. *)
Lemma X5_remove_first_occurrence_witness :
  let a := rule (lit "a") false [] in
  let b := rule (lit "b") false [] in
  let d := mkDisk Absent Absent true in
  remove_entry (mkConfig [a] true, d) b = ((mkConfig [a] true, d), false) /\
  exists l1 l2,
    [a; b; a] = l1 ++ a :: l2 /\ ~ In a l1 /\
    entries (fst (fst (remove_entry (mkConfig [a; b; a] true, d) a))) = l1 ++ l2.
Proof.
  cbv zeta. split.
  - apply (proj1 (X5_remove_first_occurrence
             (mkConfig [rule (lit "a") false []] true)
             (mkDisk Absent Absent true) (rule (lit "b") false []))).
    intros [H|[]]. discriminate H.
  - destruct (proj2 (X5_remove_first_occurrence
             (mkConfig [rule (lit "a") false []; rule (lit "b") false [];
                        rule (lit "a") false []] true)
             (mkDisk Absent Absent true) (rule (lit "a") false []))
             (or_introl eq_refl)) as [l1 [l2 [E [Hn [Hes _]]]]].
    exists l1, l2. repeat split; assumption.
Defined.

(** X6.  On a rule set whose entries carry both keys [add_entry] raises
    nothing, and it keeps the invariants of the rule set: the entries still
    carry both keys, unique keys stay unique, and afterwards exactly one
    entry has the key that was added. *)
Theorem X6_add_keeps_invariants :
  forall lower (c : SanamLuangConfig) (d : disk) p r repl,
    well_formed (entries c) ->
    let res := add_entry lower (c, d) p r repl in
    (exists b, snd res = Ret b) /\
    well_formed (entries (fst (fst res))) /\
    (unique_keys (entries c) ->
     unique_keys (entries (fst (fst res))) /\
     count_key p r (entries (fst (fst res))) = 1).
Proof.
  intros lower c d p r repl Hwf. cbv zeta. unfold add_entry.
  rewrite (has_key_wf (entries c) p r Hwf).
  destruct (existsb (key_is p r) (entries c)) eqn:Hex.
  - cbn [fst snd]. split; [now exists false|]. split; [exact Hwf|].
    intros Hu. split; [exact Hu|].
    apply existsb_exists in Hex as [x [Hx Hkx]]. apply key_is_key in Hkx.
    exact (count_key_unique p r _ x Hu Hx Hkx).
  - assert (Hwf' : well_formed (entries c ++ [rule p r repl])).
    { apply well_formed_app. split; [assumption|].
      constructor; [apply complete_rule | constructor]. }
    destruct (sort_entries_wf lower _ Hwf') as [sorted [Hs [Hp _]]].
    rewrite Hs.
    pose proof (save_config_entries (mkConfig sorted (enabled c)) d) as Hsave.
    destruct (save_config (mkConfig sorted (enabled c), d)) as [[c1 d1] ok].
    cbn [fst snd] in *. subst c1. cbn [entries].
    split; [now exists ok|]. split; [exact (well_formed_perm _ _ Hp Hwf')|].
    intros Hu.
    assert (Hu' : unique_keys (entries c ++ [rule p r repl])).
    { unfold unique_keys in *. rewrite map_app. cbn [map].
      apply (Permutation_NoDup (Permutation_cons_append _ _)).
      constructor; [|exact Hu].
      intros Hin. apply in_map_iff in Hin as [y [Hky Hy]].
      assert (existsb (key_is p r) (entries c) = true).
      { apply existsb_exists. exists y. split; [assumption|].
        now apply key_is_key. }
      congruence. }
    split; [exact (unique_keys_perm _ _ Hp Hu')|].
    apply (count_key_unique p r _ (rule p r repl)).
    + exact (unique_keys_perm _ _ Hp Hu').
    + apply (Permutation_in _ Hp). apply in_or_app. right. now left.
    + reflexivity.
Qed.

(** Adding the regex "a" to the store that holds the literal "a". *)
Lemma X6_add_keeps_invariants_witness :
  let c := mkConfig [rule (lit "a") false []] true in
  let d := mkDisk Absent Absent true in
  unique_keys (entries (fst (fst (add_entry ascii_lower (c, d) (lit "a") true [])))) /\
  count_key (lit "a") true
    (entries (fst (fst (add_entry ascii_lower (c, d) (lit "a") true [])))) = 1.
Proof.
  cbv zeta.
  pose proof (X6_add_keeps_invariants ascii_lower
    (mkConfig [rule (lit "a") false []] true) (mkDisk Absent Absent true)
    (lit "a") true []) as H.
  destruct H as [_ [_ H]]; [repeat constructor|].
  apply H. unfold unique_keys. cbn [entries map].
  constructor; [intros [] | constructor].
Defined.

(** On entries that carry both keys [add_entry] raises nothing. *)
Lemma add_entry_returns lower (c : SanamLuangConfig) (d : disk) p r repl :
  well_formed (entries c) ->
  exists b, snd (add_entry lower (c, d) p r repl) = Ret b.
Proof.
  intros Hwf. unfold add_entry. rewrite (has_key_wf (entries c) p r Hwf).
  destruct (existsb (key_is p r) (entries c)); [now exists false|].
  assert (Hwf' : well_formed (entries c ++ [rule p r repl])).
  { apply well_formed_app. split; [assumption|].
    constructor; [apply complete_rule | constructor]. }
  destruct (sort_entries_wf lower _ Hwf') as [sorted [Hs _]].
  rewrite Hs.
  destruct (save_config (mkConfig sorted (enabled c), d)) as [s1 ok].
  now exists ok.
Qed.

Lemma item_entries_rules (it : dict_item) :
  Forall (fun e => exists p r s, e = rule p r s) (item_entries it).
Proof.
  destruct it as [v r repl|kvs|s|]; cbn [item_entries].
  - constructor; [|constructor]. now exists v, r, (get repl []).
  - rewrite Forall_forall. intros e He. apply in_map_iff in He as [kv [<- _]].
    now exists (fst kv), false, (map_replacement (snd kv)).
  - constructor; [|constructor]. now exists s, false, [].
  - constructor.
Qed.

(** X7.  For a bundled dictionary whose values have the types of the
    schema (see [dict_item]), whichever of the three item shapes it uses and
    whether or not it is a list: every entry of the default dictionary
    carries all three keys, a missing replacement having become the empty
    string; so after [reset_to_defaults] the entries carry both keys the
    store reads and [add_entry] raises nothing. *)
Theorem X7_defaults_are_complete_rules :
  forall lower (c : SanamLuangConfig) (d : disk),
    Forall (fun e => exists p r s, e = rule p r s) (load_default_dictionary d) /\
    let s' := fst (reset_to_defaults (c, d)) in
    well_formed (entries (fst s')) /\
    forall p r repl, exists b, snd (add_entry lower s' p r repl) = Ret b.
Proof.
  intros lower c d.
  assert (Hall : Forall (fun e => exists p r s, e = rule p r s)
                        (load_default_dictionary d)).
  { unfold load_default_dictionary.
    destruct (default_dict d) as [| |[items|]].
    - repeat constructor; eexists _, _, _; reflexivity.
    - repeat constructor; eexists _, _, _; reflexivity.
    - induction items as [|it items IH]; cbn [flat_map]; [constructor|].
      apply Forall_app. split; [apply item_entries_rules | exact IH].
    - constructor. }
  split; [exact Hall|]. cbv zeta.
  assert (Hwf : well_formed (entries (fst (fst (reset_to_defaults (c, d)))))).
  { unfold reset_to_defaults. rewrite save_config_entries. cbn [entries].
    unfold well_formed. eapply Forall_impl; [|exact Hall].
    intros e [p [r [s ->]]]. reflexivity. }
  split; [exact Hwf|].
  intros p r repl.
  destruct (fst (reset_to_defaults (c, d))) as [c' d'] eqn:E.
  cbn [fst] in Hwf.
  exact (add_entry_returns lower c' d' p r repl Hwf).
Qed.

(** Sorting a sorted list leaves it as it is. *)
Lemma sort_decorated_sorted_id (l : list (pystr * entry)) :
  StronglySorted key_le l -> fold_right insert_by_key [] l = l.
Proof.
  induction 1 as [|x l Hs IH Hall]; [reflexivity|].
  cbn [fold_right]. rewrite IH.
  destruct l as [|y l]; [reflexivity|].
  cbn [insert_by_key]. inversion Hall as [|? ? Hxy _]; subst.
  unfold key_le in Hxy. now rewrite Hxy.
Qed.

(** Sorting a sorted list with one more element at its end puts that element
    in and moves nothing else. *)
Lemma sort_decorated_insert (x : pystr * entry) (l : list (pystr * entry)) :
  StronglySorted key_le l ->
  exists l1 l2, l = l1 ++ l2 /\ fold_right insert_by_key [x] l = l1 ++ x :: l2.
Proof.
  induction 1 as [|a l Hs IH Hall].
  - exists [], []. split; reflexivity.
  - destruct IH as [l1 [l2 [E Hf]]]. cbn [fold_right]. rewrite Hf.
    destruct l1 as [|y l1].
    + cbn [app insert_by_key]. destruct (str_ltb (fst x) (fst a)) eqn:Exa.
      * exists [], (a :: l2). cbn [app] in E. subst l. split; [reflexivity|].
        cbn [app]. f_equal.
        destruct l2 as [|z l2]; [reflexivity|].
        cbn [insert_by_key]. inversion Hall as [|? ? Haz _]; subst.
        unfold key_le in Haz. now rewrite Haz.
      * exists [a], l2. cbn [app] in E. subst l. split; reflexivity.
    + cbn [app insert_by_key].
      assert (Hay : str_ltb (fst y) (fst a) = false).
      { subst l. cbn [app] in Hall. now inversion Hall. }
      rewrite Hay. exists (a :: y :: l1), l2. subst l. split; reflexivity.
Qed.

Lemma decorated_sorted lower (es : list entry) :
  sorted_by_pattern lower es ->
  StronglySorted key_le (map (fun e => (lower (get (value e) []), e)) es).
Proof.
  unfold sorted_by_pattern. induction 1 as [|x l Hs IH Hall]; cbn [map];
    [constructor|].
  constructor; [exact IH|].
  rewrite Forall_forall in Hall |- *. intros y Hy.
  apply in_map_iff in Hy as [e [<- He]]. exact (Hall e He).
Qed.

(** [list.sort] on a sorted list of entries that carry a pattern. *)
Lemma sort_entries_sorted_id lower (es : list entry) :
  well_formed es -> sorted_by_pattern lower es -> sort_entries lower es = Ret es.
Proof.
  intros Hwf Hs. unfold sort_entries. rewrite (decorate_wf lower es Hwf).
  cbn [bind]. rewrite (sort_decorated_sorted_id _ (decorated_sorted lower es Hs)).
  rewrite map_map. cbn [snd]. now rewrite map_id.
Qed.

Lemma sort_entries_append lower (es : list entry) (x : entry) :
  well_formed es -> complete x = true -> sorted_by_pattern lower es ->
  exists l1 l2, es = l1 ++ l2 /\ sort_entries lower (es ++ [x]) = Ret (l1 ++ x :: l2).
Proof.
  intros Hwf Hx Hs. unfold sort_entries.
  assert (Hwf' : well_formed (es ++ [x])).
  { apply well_formed_app. split; [assumption|]. now repeat constructor. }
  rewrite (decorate_wf lower _ Hwf'). cbn [bind].
  rewrite map_app. cbn [map]. rewrite fold_right_app. cbn [fold_right insert_by_key].
  destruct (sort_decorated_insert (lower (get (value x) []), x) _
              (decorated_sorted lower es Hs)) as [d1 [d2 [E Hf]]].
  rewrite Hf. exists (map snd d1), (map snd d2). split.
  - rewrite <- map_app, <- E, map_map. cbn [snd]. now rewrite map_id.
  - now rewrite map_app.
Qed.

(** X8.  On a sorted rule set, [add_entry] of a new key puts the new rule in
    and leaves every other entry where it was relative to the others; and
    [remove_entry] of that rule afterwards gives the entry list back as it
    was before the addition. *)
Theorem X8_add_inserts_then_remove_restores :
  forall lower (c : SanamLuangConfig) (d : disk) p r repl,
    well_formed (entries c) ->
    sorted_by_pattern lower (entries c) ->
    (forall e, In e (entries c) -> key e <> (Some p, Some r)) ->
    let s1 := fst (add_entry lower (c, d) p r repl) in
    (exists l1 l2,
        entries c = l1 ++ l2 /\
        entries (fst s1) = l1 ++ rule p r repl :: l2) /\
    entries (fst (fst (remove_entry s1 (rule p r repl)))) = entries c.
Proof.
  intros lower c d p r repl Hwf Hs Hnew.
  destruct (sort_entries_append lower (entries c) (rule p r repl)
              Hwf (complete_rule p r repl) Hs) as [l1 [l2 [E Hsort]]].
  assert (Hs1 : entries (fst (fst (add_entry lower (c, d) p r repl)))
                = l1 ++ rule p r repl :: l2).
  { unfold add_entry. rewrite (has_key_wf (entries c) p r Hwf).
    assert (Hex : existsb (key_is p r) (entries c) = false).
    { destruct (existsb (key_is p r) (entries c)) eqn:Hex; [|reflexivity].
      apply existsb_exists in Hex as [x [Hx Hkx]]. apply key_is_key in Hkx.
      exfalso. exact (Hnew x Hx Hkx). }
    rewrite Hex, Hsort.
    pose proof (save_config_entries
                  (mkConfig (l1 ++ rule p r repl :: l2) (enabled c)) d) as Hsave.
    destruct (save_config (mkConfig (l1 ++ rule p r repl :: l2) (enabled c), d))
      as [[c1 d1] ok].
    cbn [fst] in *. now subst c1. }
  cbv zeta. split.
  - exists l1, l2. now split.
  - destruct (fst (add_entry lower (c, d) p r repl)) as [c1 d1].
    cbn [fst] in Hs1. unfold remove_entry. rewrite Hs1.
    rewrite list_remove_first.
    + rewrite save_config_entries. cbn [entries]. now rewrite E.
    + intros Hin. apply (Hnew (rule p r repl)); [|reflexivity].
      rewrite E. apply in_or_app. now left.
Qed.

(** Adding "b" between "a" and "c" and removing it again. *)
Lemma X8_add_inserts_then_remove_restores_witness :
  let c := mkConfig [rule (lit "a") false []; rule (lit "C") false []] true in
  let d := mkDisk Absent Absent true in
  let s1 := fst (add_entry ascii_lower (c, d) (lit "b") false (lit "x")) in
  entries (fst (fst (remove_entry s1 (rule (lit "b") false (lit "x")))))
  = entries c.
Proof.
  cbv zeta.
  refine (proj2 (X8_add_inserts_then_remove_restores ascii_lower
    (mkConfig [rule (lit "a") false []; rule (lit "C") false []] true)
    (mkDisk Absent Absent true) (lit "b") false (lit "x") _ _ _)).
  - repeat constructor.
  - repeat constructor.
  - intros e [<-|[<-|[]]]; discriminate.
Defined.

Lemma find_index_first (l1 : list entry) (a : entry) (l2 : list entry)
  (old : entry) (p : pystr) (r : bool) :
  well_formed (l1 ++ a :: l2) -> key old = (Some p, Some r) ->
  key a = (Some p, Some r) ->
  (forall e, In e l1 -> key e <> (Some p, Some r)) ->
  forall k, find_index (l1 ++ a :: l2) old k = Ret (Some (k + length l1)).
Proof.
  intros Hwf Hold Ha.
  assert (Hv : value old = Some p) by (unfold key in Hold; congruence).
  assert (Hr : is_regex old = Some r) by (unfold key in Hold; congruence).
  assert (Hva : value a = Some p) by (unfold key in Ha; congruence).
  assert (Hra : is_regex a = Some r) by (unfold key in Ha; congruence).
  clear Hold Ha. revert Hwf.
  induction l1 as [|x l1 IH]; intros Hwf Hl1 k.
  - cbn [app find_index length].
    rewrite Hv, Hva, Hr, Hra. cbn [item bind].
    now rewrite str_eqb_refl, eqb_reflx, Nat.add_0_r.
  - cbn [app] in Hwf. inversion Hwf as [|? ? Hx Hrest]; subst.
    cbn [app find_index length]. unfold complete in Hx.
    assert (Hkx : key x <> (Some p, Some r)) by (apply Hl1; now left).
    unfold key in Hkx.
    destruct (value x) as [v|] eqn:Ev; [|discriminate].
    destruct (is_regex x) as [b|] eqn:Eb; [|discriminate].
    rewrite Hv, Hr. cbn [item bind].
    assert (Hnext : find_index (l1 ++ a :: l2) old (S k)
                    = Ret (Some (k + S (length l1)))).
    { rewrite IH; [now rewrite Nat.add_succ_r | assumption |].
      intros e He. apply Hl1. now right. }
    destruct (str_eqb v p) eqn:Es; [|exact Hnext].
    destruct (Bool.eqb b r) eqn:Ebr; [|exact Hnext].
    apply str_eqb_eq in Es. apply eqb_prop in Ebr. subst. now contradiction Hkx.
Qed.

Lemma map_value_in (l l' : list entry) :
  map value l = map value l' ->
  forall y', In y' l' -> exists y, In y l /\ value y = value y'.
Proof.
  revert l'. induction l as [|x l IH]; intros [|x' l'] Hm y' Hy';
    try discriminate; [destruct Hy'|].
  cbn [map] in Hm. inversion Hm as [[Hx Hl]].
  destruct Hy' as [<-|Hy'].
  - exists x. split; [now left | assumption].
  - destruct (IH l' Hl y' Hy') as [y [Hy Hv]]. exists y. split; [now right | assumption].
Qed.

(** Sortedness by pattern looks at the patterns only. *)
Lemma sorted_by_pattern_values lower (l l' : list entry) :
  map value l = map value l' ->
  sorted_by_pattern lower l -> sorted_by_pattern lower l'.
Proof.
  unfold sorted_by_pattern. revert l'.
  induction l as [|x l IH]; intros [|x' l'] Hm Hs; try discriminate;
    [constructor|].
  cbn [map] in Hm. inversion Hm as [[Hx Hl]].
  inversion Hs as [|? ? Hs' Hall]; subst.
  constructor; [now apply IH|].
  rewrite Forall_forall in Hall |- *. intros y' Hy'.
  destruct (map_value_in l l' Hl y' Hy') as [y [Hy Hvy]].
  specialize (Hall y Hy).
  unfold entry_le in *. now rewrite <- Hx, <- Hvy.
Qed.

(** X9.  On a sorted rule set with unique keys, [update_entry] that keeps
    the pattern and the regex flag and changes the replacement only puts the
    new rule at the place of the old one and moves no entry. *)
Theorem X9_edit_replacement_keeps_place :
  forall lower (c : SanamLuangConfig) (d : disk) (old a : entry)
         (l1 l2 : list entry) p r repl,
    well_formed (entries c) ->
    sorted_by_pattern lower (entries c) ->
    unique_keys (entries c) ->
    entries c = l1 ++ a :: l2 ->
    key a = (Some p, Some r) -> key old = (Some p, Some r) ->
    update_entry lower (c, d) old p r repl
    = save_config (mkConfig (l1 ++ rule p r repl :: l2) (enabled c), d).
Proof.
  intros lower c d old a l1 l2 p r repl Hwf Hs Hu E Ha Hold.
  unfold unique_keys in Hu. rewrite E, map_app in Hu. cbn [map] in Hu.
  assert (Hothers : forall e, In e (l1 ++ l2) -> key e <> (Some p, Some r)).
  { intros e He Hk. apply NoDup_remove_2 in Hu. apply Hu.
    rewrite <- map_app, Ha, <- Hk. now apply in_map. }
  assert (Hex : existsb (key_is p r) (l1 ++ l2) = false).
  { destruct (existsb (key_is p r) (l1 ++ l2)) eqn:Hex; [|reflexivity].
    apply existsb_exists in Hex as [x [Hx Hkx]]. apply key_is_key in Hkx.
    exfalso. exact (Hothers x Hx Hkx). }
  unfold update_entry. rewrite E. rewrite E in Hwf.
  rewrite (find_index_first l1 a l2 old p r Hwf Hold Ha).
  2:{ intros e He. apply Hothers. apply in_or_app. now left. }
  cbn [Nat.add].
  pose proof (collides_wf l1 a l2 p r Hwf 0) as Hc.
  cbn [Nat.add] in Hc. rewrite Hc, Hex, set_item_middle.
  rewrite sort_entries_sorted_id; [reflexivity| |].
  - apply well_formed_app in Hwf as [H1 H2].
    inversion H2 as [|? ? _ H2']; subst.
    apply well_formed_app. split; [assumption|].
    constructor; [apply complete_rule | assumption].
  - apply (sorted_by_pattern_values lower (l1 ++ a :: l2)).
    + rewrite !map_app. cbn [map]. unfold key in Ha. inversion Ha as [[Hv Hr]].
      now rewrite Hv.
    + now rewrite <- E.
Qed.

(** Changing the replacement of "b" in the store ["a"; "b"; "c"]. *)
Lemma X9_edit_replacement_keeps_place_witness :
  let a := rule (lit "a") false [] in
  let b := rule (lit "b") false (lit "1") in
  let c3 := rule (lit "c") true [] in
  let d := mkDisk Absent Absent true in
  entries (fst (fst (update_entry ascii_lower (mkConfig [a; b; c3] true, d) b
                       (lit "b") false (lit "2"))))
  = [a; rule (lit "b") false (lit "2"); c3].
Proof.
  cbv zeta.
  rewrite (X9_edit_replacement_keeps_place ascii_lower
    (mkConfig [rule (lit "a") false []; rule (lit "b") false (lit "1");
               rule (lit "c") true []] true)
    (mkDisk Absent Absent true)
    (rule (lit "b") false (lit "1")) (rule (lit "b") false (lit "1"))
    [rule (lit "a") false []] [rule (lit "c") true []]
    (lit "b") false (lit "2")).
  - reflexivity.
  - repeat constructor.
  - repeat constructor.
  - unfold unique_keys. cbn [entries map].
    repeat constructor; cbn [In]; intuition discriminate.
  - reflexivity.
  - reflexivity.
  - reflexivity.
Defined.

(** ** The correction engine: further properties *)

Lemma starts_with_split (t old : pystr) :
  starts_with t old = true -> exists rest, t = old ++ rest.
Proof.
  revert t. induction old as [|o old IH]; intros t H.
  - now exists t.
  - destruct t as [|c t]; [discriminate|]. cbn [starts_with] in H.
    apply andb_prop in H as [Hc Hr]. apply N.eqb_eq in Hc. subst.
    destruct (IH t Hr) as [rest ->]. now exists rest.
Qed.

Lemma insert_longest_filter (n : nat) (x : subst) (l : list subst) :
  filter (pattern_length_is n) (insert_longest x l)
  = filter (pattern_length_is n) (x :: l).
Proof.
  induction l as [|y l IH]; [reflexivity|].
  cbn [insert_longest]. destruct (length (fst x) <? length (fst y)) eqn:E;
    [|reflexivity].
  apply Nat.ltb_lt in E.
  change (filter (pattern_length_is n) (y :: insert_longest x l))
    with (if pattern_length_is n y
          then y :: filter (pattern_length_is n) (insert_longest x l)
          else filter (pattern_length_is n) (insert_longest x l)).
  rewrite IH. cbn [filter].
  destruct (pattern_length_is n x) eqn:Ex, (pattern_length_is n y) eqn:Ey;
    try reflexivity.
  unfold pattern_length_is in Ex, Ey. apply Nat.eqb_eq in Ex, Ey. lia.
Qed.

(** X10.  The longest-first order of the literal pass is stable: the rules
    whose patterns have one and the same length are applied in the order in
    which they stand in the rule set. *)
Theorem X10_literal_sort_is_stable :
  forall (c : SanamLuangConfig) (n : nat),
    filter (pattern_length_is n)
           (sorted_longest_first (fst (partition_entries (entries c))))
    = filter (pattern_length_is n) (literal_rules (entries c)).
Proof.
  intros c n. rewrite partition_entries_rules. cbn [fst].
  induction (literal_rules (entries c)) as [|x l IH]; [reflexivity|].
  cbn [sorted_longest_first fold_right]. rewrite insert_longest_filter.
  cbn [filter]. fold (sorted_longest_first l). now rewrite IH.
Qed.

Lemma literal_pass_nil (l : list subst) :
  (forall p r, In (p, r) l -> p <> []) -> literal_pass l [] = [].
Proof.
  unfold literal_pass. induction l as [|[p r] l IH]; intros H; [reflexivity|].
  cbn [fold_left fst snd].
  rewrite (str_replace_nil p r (H p r (or_introl eq_refl))).
  apply IH. intros q s Hin. apply (H q s). now right.
Qed.

Lemma apply_corrections_literal_only re_sub (c : SanamLuangConfig) (text : pystr) :
  (forall e, In e (entries c) -> get (is_regex e) false = false) ->
  apply_corrections re_sub c text
  = Ret (literal_pass (sorted_longest_first (literal_rules (entries c))) text).
Proof.
  intros Hlit.
  assert (Hre : regex_rules (entries c) = []).
  { unfold regex_rules. induction (entries c) as [|e es IH]; [reflexivity|].
    cbn [filter]. unfold is_regex_rule at 1.
    rewrite (Hlit e (or_introl eq_refl)), andb_false_r.
    apply IH. intros x Hx. apply Hlit. now right. }
  now rewrite apply_corrections_passes, Hre.
Qed.

(** X11.  With a rule set that has no regex rule the correction pass calls
    [re.sub] never and so raises nothing, whatever the regex library does;
    and it turns the empty text into the empty text. *)
Theorem X11_literal_rule_set_never_raises :
  forall re_sub (c : SanamLuangConfig) (text : pystr),
    (forall e, In e (entries c) -> get (is_regex e) false = false) ->
    apply_corrections re_sub c text
    = Ret (literal_pass (sorted_longest_first (literal_rules (entries c))) text) /\
    apply_corrections re_sub c [] = Ret [].
Proof.
  intros re_sub c text Hlit.
  rewrite !(apply_corrections_literal_only re_sub c _ Hlit).
  split; [reflexivity|]. f_equal. apply literal_pass_nil.
  intros p r Hin.
  apply (Permutation_in _ (Permutation_sym (sorted_longest_first_perm _))) in Hin.
  exact (literal_rules_nonempty _ p r Hin).
Qed.

(** A regex library that raises on every call. *)
Lemma X11_literal_rule_set_never_raises_witness :
  apply_corrections (fun _ _ _ => Raise OverflowError)
    (mkConfig [rule (lit "a") false (lit "b"); rule [] false (lit "x")] true) []
  = Ret [].
Proof.
  refine (proj2 (X11_literal_rule_set_never_raises
    (fun _ _ _ => Raise OverflowError)
    (mkConfig [rule (lit "a") false (lit "b"); rule [] false (lit "x")] true)
    [] _)).
  intros e [<-|[<-|[]]]; reflexivity.
Defined.

Lemma replace_from_same (old : pystr) (t : pystr) (skip : nat) :
  old <> [] -> replace_from old old skip t = skipn skip t.
Proof.
  intros Hne. revert skip. induction t as [|c t IH]; intros skip.
  - now destruct skip.
  - cbn [replace_from]. destruct skip as [|k]; [|apply IH].
    cbn [skipn]. destruct (starts_with (c :: t) old) eqn:E.
    + destruct (starts_with_split _ _ E) as [rest Hrest].
      destruct old as [|o old]; [contradiction|].
      cbn [app] in Hrest. inversion Hrest; subst.
      rewrite IH. cbn [length].
      replace (S (length old) - 1) with (length old) by lia.
      rewrite skipn_app, Nat.sub_diag, skipn_all. reflexivity.
    + now rewrite IH.
Qed.

(** [text.replace(old, old)] is [text], also for the empty [old]. *)
Lemma str_replace_same (text old : pystr) : str_replace text old old = text.
Proof.
  destruct old as [|o old].
  - unfold str_replace. cbn [app].
    induction text as [|c text IH]; [reflexivity|].
    cbn [flat_map app]. now rewrite IH.
  - unfold str_replace. rewrite replace_from_same; [reflexivity | discriminate].
Qed.

(** X12.  Literal rules whose replacement is their own pattern change no
    text: a rule set that has only such rules gives every text back as it
    is, and raises nothing. *)
Theorem X12_self_replacing_rules_change_nothing :
  forall re_sub (c : SanamLuangConfig) (text : pystr),
    (forall e, In e (entries c) ->
               get (is_regex e) false = false /\
               get (replacement e) [] = get (value e) []) ->
    apply_corrections re_sub c text = Ret text.
Proof.
  intros re_sub c text Hall.
  rewrite apply_corrections_literal_only
    by (intros e He; exact (proj1 (Hall e He))).
  f_equal.
  assert (Hrules : forall p r,
             In (p, r) (sorted_longest_first (literal_rules (entries c))) -> r = p).
  { intros p r Hin.
    apply (Permutation_in _ (Permutation_sym (sorted_longest_first_perm _))) in Hin.
    unfold literal_rules in Hin. apply in_map_iff in Hin as [e [He Hin]].
    apply filter_In in Hin as [Hin _]. unfold as_subst in He.
    inversion He; subst. exact (proj2 (Hall e Hin)). }
  revert Hrules. generalize (sorted_longest_first (literal_rules (entries c))).
  intros l. unfold literal_pass.
  induction l as [|[p r] l IH]; intros Hrules; [reflexivity|].
  cbn [fold_left fst snd]. rewrite (Hrules p r (or_introl eq_refl)).
  rewrite str_replace_same. apply IH.
  intros q s0 Hin. apply (Hrules q s0). now right.
Qed.

(** The rules "aa" -> "aa" and "a" -> "a" on "aaa". *)
Lemma X12_self_replacing_rules_change_nothing_witness :
  apply_corrections sample_re_sub
    (mkConfig [rule (lit "a") false (lit "a"); rule (lit "aa") false (lit "aa")] true)
    (lit "aaa")
  = Ret (lit "aaa").
Proof.
  apply X12_self_replacing_rules_change_nothing.
  intros e [<-|[<-|[]]]; split; reflexivity.
Defined.

Lemma replace_from_length (old new : pystr) :
  old <> [] -> length new <= length old ->
  forall t skip,
    length (replace_from old new skip t) + Nat.min skip (length t) <= length t.
Proof.
  intros Hne Hlen. induction t as [|c t IH]; intros skip.
  - cbn. lia.
  - cbn [replace_from length]. destruct skip as [|k].
    + destruct (starts_with (c :: t) old) eqn:E.
      * destruct (starts_with_split _ _ E) as [rest Hrest].
        destruct old as [|o old]; [contradiction|].
        cbn [app] in Hrest. inversion Hrest; subst.
        specialize (IH (length (o :: old) - 1)).
        rewrite ?length_app in *. cbn [length] in *. rewrite ?length_app in *. lia.
      * specialize (IH 0). cbn [length]. lia.
    + specialize (IH k). lia.
Qed.

Lemma literal_pass_length (l : list subst) :
  (forall p r, In (p, r) l -> p <> [] /\ length r <= length p) ->
  forall text, length (literal_pass l text) <= length text.
Proof.
  unfold literal_pass. induction l as [|[p r] l IH]; intros Hrules text;
    [cbn; lia|].
  cbn [fold_left fst snd].
  destruct (Hrules p r (or_introl eq_refl)) as [Hne Hlen].
  assert (Hstep : length (str_replace text p r) <= length text).
  { destruct p as [|o p]; [contradiction|]. unfold str_replace.
    pose proof (replace_from_length (o :: p) r Hne Hlen text 0). lia. }
  etransitivity; [apply IH|exact Hstep].
  intros q s Hin. apply (Hrules q s). now right.
Qed.

(** X13.  A literal replacement that is no longer than its pattern never
    makes a text longer; so a rule set of literal rules whose replacements
    are no longer than their patterns, as the built-in rules are, never
    lengthens the text it corrects. *)
Theorem X13_short_replacements_never_lengthen :
  forall re_sub (c : SanamLuangConfig) (text : pystr),
    (forall e, In e (entries c) ->
               get (is_regex e) false = false /\
               length (get (replacement e) []) <= length (get (value e) [])) ->
    exists t',
      apply_corrections re_sub c text = Ret t' /\ length t' <= length text.
Proof.
  intros re_sub c text Hall.
  eexists. split.
  - apply apply_corrections_literal_only.
    intros e He. exact (proj1 (Hall e He)).
  - apply literal_pass_length. intros p r Hin.
    apply (Permutation_in _ (Permutation_sym (sorted_longest_first_perm _))) in Hin.
    split; [exact (literal_rules_nonempty _ p r Hin)|].
    unfold literal_rules in Hin. apply in_map_iff in Hin as [e [He Hin]].
    apply filter_In in Hin as [Hin _]. unfold as_subst in He.
    inversion He; subst. exact (proj2 (Hall e Hin)).
Qed.

(** The built-in rules on a text of five characters. *)
Lemma X13_short_replacements_never_lengthen_witness :
  exists t',
    apply_corrections sample_re_sub (mkConfig builtin_entries false)
      [0xE01; 0xE4D; 0xE32; 0xE40; 0xE40]%N = Ret t' /\
    length t' <= 5.
Proof.
  apply (X13_short_replacements_never_lengthen sample_re_sub
           (mkConfig builtin_entries false) [0xE01; 0xE4D; 0xE32; 0xE40; 0xE40]%N).
  intros e He. cbn [entries builtin_entries In] in He.
  repeat (destruct He as [<-|He]; [split; [reflexivity | cbn; lia]|]).
  destruct He.
Defined.

(** ** The store and its callers: further properties *)

(** X14.  On a rule set with unique keys, [update_entry] that renames an
    entry to a key no other entry has keeps the number of entries: the new
    rule is in the list, exactly one entry has the new key, none has the
    old key when the key changed, and the list is sorted. *)
Theorem X14_rename_without_collision :
  forall lower (c : SanamLuangConfig) (d : disk) (old : entry)
         p0 r0 p r repl,
    well_formed (entries c) -> unique_keys (entries c) ->
    key old = (Some p0, Some r0) ->
    (exists e, In e (entries c) /\ key e = key old) ->
    (forall e, In e (entries c) -> key e = (Some p, Some r) -> key e = key old) ->
    let es' := entries (fst (fst (update_entry lower (c, d) old p r repl))) in
    length es' = length (entries c) /\
    In (rule p r repl) es' /\
    count_key p r es' = 1 /\
    ((Some p0, Some r0) <> (Some p, Some r) -> count_key p0 r0 es' = 0) /\
    sorted_by_pattern lower es'.
Proof.
  intros lower c d old p0 r0 p r repl Hwf Hu Hold [x [Hx Hkx]] Hfree.
  destruct (update_entry_wf lower c d old p0 r0 p r Hwf Hold)
    as [[Hall _]|[l1 [a [l2 [E [Ha [Hl1 Hupd]]]]]]].
  - exfalso. rewrite Forall_forall in Hall. specialize (Hall x Hx).
    apply key_is_false_neq in Hall. congruence.
  - apply key_is_key in Ha.
    pose proof Hu as Hu0.
    unfold unique_keys in Hu. rewrite E, map_app in Hu. cbn [map] in Hu.
    assert (Hothers : forall e, In e (l1 ++ l2) -> key e <> (Some p0, Some r0)).
    { intros e He Hk. apply NoDup_remove_2 in Hu. apply Hu.
      rewrite <- map_app, Ha, <- Hk. now apply in_map. }
    assert (Hex : existsb (key_is p r) (l1 ++ l2) = false).
    { destruct (existsb (key_is p r) (l1 ++ l2)) eqn:Hex; [|reflexivity].
      apply existsb_exists in Hex as [y [Hy Hky]]. apply key_is_key in Hky.
      exfalso. apply (Hothers y Hy). rewrite <- Hold. apply Hfree; [|exact Hky].
      rewrite E. apply in_app_or in Hy as [Hy|Hy]; apply in_or_app;
        [now left | right; now right]. }
    cbv zeta in Hupd. rewrite Hex in Hupd.
    destruct (Hupd repl) as [sorted [_ [_ [Hp [Hsorted Hu']]]]].
    cbv zeta. rewrite Hu', save_config_entries. cbn [entries].
    assert (Hnd : unique_keys (l1 ++ rule p r repl :: l2)).
    { unfold unique_keys. rewrite map_app. cbn [map].
      apply (Permutation_NoDup (Permutation_middle _ _ _)).
      constructor; [|now apply NoDup_remove_1 in Hu].
      rewrite <- map_app. intros Hin. apply in_map_iff in Hin as [y [Hky Hy]].
      assert (existsb (key_is p r) (l1 ++ l2) = true).
      { apply existsb_exists. exists y. split; [assumption|].
        now apply key_is_key. }
      congruence. }
    split; [|split; [|split; [|split]]].
    + rewrite <- (Permutation_length Hp), E, !length_app. reflexivity.
    + apply (Permutation_in _ Hp). apply in_or_app. right. now left.
    + rewrite <- (count_key_perm p r _ _ Hp).
      apply (count_key_unique p r _ (rule p r repl) Hnd); [|reflexivity].
      apply in_or_app. right. now left.
    + intros Hne. rewrite <- (count_key_perm p0 r0 _ _ Hp).
      apply count_key_absent. rewrite map_app. cbn [map].
      intros Hin. apply in_app_or in Hin as [Hin|[Hin|Hin]].
      * apply in_map_iff in Hin as [y [Hky Hy]].
        apply (Hothers y); [apply in_or_app; now left | assumption].
      * apply Hne. unfold key in Hin. cbn in Hin. congruence.
      * apply in_map_iff in Hin as [y [Hky Hy]].
        apply (Hothers y); [apply in_or_app; now right | assumption].
    + exact Hsorted.
Qed.

(** Renaming "b" to "A" in the store ["b"; "c"]. *)
Lemma X14_rename_without_collision_witness :
  let c := mkConfig [rule (lit "b") false []; rule (lit "c") false []] true in
  let d := mkDisk Absent Absent true in
  let es' := entries (fst (fst (update_entry ascii_lower (c, d)
                                  (rule (lit "b") false []) (lit "A") true (lit "x")))) in
  length es' = 2 /\ In (rule (lit "A") true (lit "x")) es'.
Proof.
  cbv zeta.
  pose proof (X14_rename_without_collision ascii_lower
    (mkConfig [rule (lit "b") false []; rule (lit "c") false []] true)
    (mkDisk Absent Absent true) (rule (lit "b") false [])
    (lit "b") false (lit "A") true (lit "x")) as H.
  destruct H as [H1 [H2 _]].
  - repeat constructor.
  - unfold unique_keys. cbn [entries map].
    repeat constructor; cbn [In]; intuition discriminate.
  - reflexivity.
  - eexists. split; [left; reflexivity | reflexivity].
  - intros e [<-|[<-|[]]]; discriminate.
  - split; assumption.
Defined.

(** X15.  [_toggle_addon] flips the enabled flag in memory and never
    touches the entries, whether or not the write succeeds; it speaks the
    new state; two toggles give the flag back; and after an enabled add-on
    is toggled the speech hook passes every text on unchanged. *)
Theorem X15_toggle_addon :
  forall re_sub (R : Type) (original : pystr -> res R) (s : state) (text : pystr),
    let s1 := fst (toggle_addon s) in
    let s2 := fst (toggle_addon s1) in
    enabled (fst s1) = negb (enabled (fst s)) /\
    entries (fst s1) = entries (fst s) /\
    snd (toggle_addon s)
    = (if enabled (fst s1) then SaidEnabled else SaidDisabled) /\
    fst s2 = fst s /\
    (enabled (fst s) = true ->
     process_text_hook re_sub original (fst s1) text = original text).
Proof.
  intros re_sub R original [[es en] d] text. cbv zeta.
  unfold toggle_addon, set_enabled, get_enabled. cbn [fst snd enabled entries].
  rewrite !save_config_entries. cbn [enabled entries].
  split; [reflexivity|]. split; [reflexivity|]. split; [reflexivity|].
  split.
  - destruct (save_config (mkConfig es (negb en), d)) as [[c1 d1] ok] eqn:Es.
    pose proof (save_config_entries (mkConfig es (negb en)) d) as H1.
    rewrite Es in H1. cbn [fst] in H1. subst c1. cbn [fst snd enabled entries].
    rewrite save_config_entries. now rewrite negb_involutive.
  - intros En. cbn [enabled] in En. subst en.
    unfold process_text_hook, get_enabled. reflexivity.
Qed.

(** Toggling an enabled add-on on a disk that cannot be written. *)
Lemma X15_toggle_addon_witness :
  let s := (mkConfig [rule (lit "a") false (lit "b")] true,
            mkDisk Absent Absent false) in
  process_text_hook sample_re_sub (fun t => Ret t) (fst (fst (toggle_addon s)))
    (lit "a")
  = Ret (lit "a").
Proof.
  cbv zeta.
  exact (proj2 (proj2 (proj2 (proj2 (X15_toggle_addon sample_re_sub pystr
    (fun t => Ret t)
    (mkConfig [rule (lit "a") false (lit "b")] true, mkDisk Absent Absent false)
    (lit "a"))))) eq_refl).
Defined.


Lemma patterns_nonempty_perm (l l' : list entry) :
  Permutation l l' -> patterns_nonempty l -> patterns_nonempty l'.
Proof. unfold patterns_nonempty. intros P. now apply Permutation_Forall. Qed.

Lemma rules_partition_length (es : list entry) :
  patterns_nonempty es ->
  length (literal_rules es) + length (regex_rules es) = length es.
Proof.
  unfold literal_rules, regex_rules. rewrite !length_map.
  induction 1 as [|e es He Hes IH]; [reflexivity|].
  cbn [filter]. unfold is_literal_rule at 1, is_regex_rule at 1. rewrite He.
  cbn [andb]. destruct (get (is_regex e) false); cbn [negb length]; lia.
Qed.

Lemma add_entry_keeps_nonempty lower (c : SanamLuangConfig) (d : disk) p r repl :
  well_formed (entries c) -> patterns_nonempty (entries c) -> p <> [] ->
  (exists b, snd (add_entry lower (c, d) p r repl) = Ret b) /\
  well_formed (entries (fst (fst (add_entry lower (c, d) p r repl)))) /\
  patterns_nonempty (entries (fst (fst (add_entry lower (c, d) p r repl)))).
Proof.
  intros Hwf Hne Hp. unfold add_entry.
  rewrite (has_key_wf (entries c) p r Hwf).
  destruct (existsb (key_is p r) (entries c)).
  - cbn [fst snd]. split; [now exists false|]. now split.
  - assert (Hwf' : well_formed (entries c ++ [rule p r repl])).
    { apply well_formed_app. split; [assumption|].
      constructor; [apply complete_rule | constructor]. }
    destruct (sort_entries_wf lower _ Hwf') as [sorted [Hs [Hperm _]]].
    rewrite Hs.
    pose proof (save_config_entries (mkConfig sorted (enabled c)) d) as Hsave.
    destruct (save_config (mkConfig sorted (enabled c), d)) as [[c1 d1] ok].
    cbn [fst] in Hsave. subst c1. cbn [fst snd entries].
    split; [now exists ok|]. split; [exact (well_formed_perm _ _ Hperm Hwf')|].
    apply (patterns_nonempty_perm _ _ Hperm).
    unfold patterns_nonempty. apply Forall_app. split; [exact Hne|].
    constructor; [|constructor]. destruct p; [contradiction | reflexivity].
Qed.

(** X16.  The add dialog does nothing when it is cancelled or its pattern
    field is empty; on a rule set whose entries carry both keys it raises
    nothing and keeps every pattern non-empty, so that every entry takes
    part in one of the two passes of the correction. *)
Theorem X16_add_dialog_keeps_patterns_nonempty :
  forall lower (c : SanamLuangConfig) (d : disk)
         (answer : option (pystr * bool * pystr)),
    (answer = None \/ (exists r repl, answer = Some ([], r, repl)) ->
     on_add lower (c, d) answer = ((c, d), Ret NothingDone)) /\
    (well_formed (entries c) -> patterns_nonempty (entries c) ->
     let res := on_add lower (c, d) answer in
     let es' := entries (fst (fst res)) in
     (exists f, snd res = Ret f) /\
     well_formed es' /\ patterns_nonempty es' /\
     length (literal_rules es') + length (regex_rules es') = length es').
Proof.
  intros lower c d answer. split.
  - intros [->|[r [repl ->]]]; reflexivity.
  - intros Hwf Hne. cbv zeta.
    assert (Hmain : (exists f, snd (on_add lower (c, d) answer) = Ret f) /\
                    well_formed (entries (fst (fst (on_add lower (c, d) answer)))) /\
                    patterns_nonempty
                      (entries (fst (fst (on_add lower (c, d) answer))))).
    { destruct answer as [[[p r] repl]|]; cbn [on_add].
      - destruct p as [|x p]; cbn [is_nil negb].
        + cbn [fst snd]. split; [now eexists|]. now split.
        + destruct (add_entry_keeps_nonempty lower c d (x :: p) r repl Hwf Hne)
            as [[b Hb] [Hwf' Hne']]; [discriminate|].
          destruct (add_entry lower (c, d) (x :: p) r repl) as [s' [ok|e]];
            cbn [snd fst] in *; [|discriminate].
          destruct ok; cbn [fst snd]; (split; [now eexists|]); now split.
      - cbn [fst snd]. split; [now eexists|]. now split. }
    destruct Hmain as [H1 [H2 H3]]. repeat split; try assumption.
    now apply rules_partition_length.
Qed.

(** The dialog closed with OK and the fields "b", unchecked, "c". *)
Lemma X16_add_dialog_keeps_patterns_nonempty_witness :
  let c := mkConfig [rule (lit "a") false []] true in
  let d := mkDisk Absent Absent true in
  on_add ascii_lower (c, d) (Some ([], true, lit "x")) = ((c, d), Ret NothingDone) /\
  patterns_nonempty
    (entries (fst (fst (on_add ascii_lower (c, d)
                          (Some (lit "b", false, lit "c")))))).
Proof.
  cbv zeta. split.
  - apply (proj1 (X16_add_dialog_keeps_patterns_nonempty ascii_lower
             (mkConfig [rule (lit "a") false []] true)
             (mkDisk Absent Absent true) (Some ([], true, lit "x")))).
    right. now exists true, (lit "x").
  - pose proof (proj2 (X16_add_dialog_keeps_patterns_nonempty ascii_lower
             (mkConfig [rule (lit "a") false []] true)
             (mkDisk Absent Absent true) (Some (lit "b", false, lit "c")))) as H.
    destruct H as [_ [_ [H _]]].
    + repeat constructor.
    + repeat constructor.
    + exact H.
Defined.



Lemma nodup_map_injective {A B} (f : A -> B) (l : list A) (a b : A) :
  NoDup (map f l) -> In a l -> In b l -> f a = f b -> a = b.
Proof.
  induction l as [|x l IH]; intros Hnd Ha Hb Hf; [destruct Ha|].
  cbn [map] in Hnd. inversion Hnd as [|? ? Hx Hnd']; subst.
  destruct Ha as [->|Ha], Hb as [->|Hb].
  - reflexivity.
  - exfalso. apply Hx. rewrite Hf. now apply in_map.
  - exfalso. apply Hx. rewrite <- Hf. now apply in_map.
  - now apply IH.
Qed.

(** Two longest-first arrangements of the same rules are the same list when
    no two patterns have the same length. *)
Lemma longest_first_unique (l l' : list subst) :
  StronglySorted longer_eq l -> StronglySorted longer_eq l' ->
  Permutation l l' ->
  NoDup (map (fun y : subst => length (fst y)) l) ->
  l = l'.
Proof.
  intros Hs. revert l'. induction Hs as [|a l Hs IH Hall]; intros l' Hs' Hp Hnd.
  - apply Permutation_nil in Hp. now subst.
  - destruct l' as [|b l'].
    + apply Permutation_sym, Permutation_nil in Hp. discriminate.
    + inversion Hs' as [|? ? Hs'' Hall']; subst.
      assert (Hab : a = b).
      { apply (nodup_map_injective (fun y : subst => length (fst y)) (a :: l));
          [exact Hnd | now left | |].
        - apply (Permutation_in _ (Permutation_sym Hp)). now left.
        - assert (H1 : length (fst a) <= length (fst b)).
          { assert (Hin : In a (b :: l'))
              by (apply (Permutation_in _ Hp); now left).
            destruct Hin as [->|Hin]; [lia|].
            rewrite Forall_forall in Hall'. exact (Hall' a Hin). }
          assert (H2 : length (fst b) <= length (fst a)).
          { assert (Hin : In b (a :: l))
              by (apply (Permutation_in _ (Permutation_sym Hp)); now left).
            destruct Hin as [->|Hin]; [lia|].
            rewrite Forall_forall in Hall. exact (Hall b Hin). }
          lia. }
      subst b. f_equal. apply IH; [assumption| |].
      * exact (Permutation_cons_inv Hp).
      * cbn [map] in Hnd. now inversion Hnd.
Qed.

(** X18.  When no two literal patterns have the same length, the order in
    which the literal rules stand in the rule set has no effect on the
    correction: two rule sets with the same literal rules in any order and
    the same regex rules in the same order correct every text alike. *)
Theorem X18_literal_order_is_irrelevant :
  forall re_sub (c c' : SanamLuangConfig) (text : pystr),
    Permutation (literal_rules (entries c)) (literal_rules (entries c')) ->
    NoDup (map (fun y : subst => length (fst y)) (literal_rules (entries c))) ->
    regex_rules (entries c) = regex_rules (entries c') ->
    apply_corrections re_sub c text = apply_corrections re_sub c' text.
Proof.
  intros re_sub c c' text Hp Hnd Hre.
  rewrite !apply_corrections_passes, Hre.
  rewrite (longest_first_unique
             (sorted_longest_first (literal_rules (entries c)))
             (sorted_longest_first (literal_rules (entries c')))).
  - reflexivity.
  - apply sorted_longest_first_sorted.
  - apply sorted_longest_first_sorted.
  - eapply perm_trans; [apply Permutation_sym, sorted_longest_first_perm|].
    eapply perm_trans; [exact Hp | apply sorted_longest_first_perm].
  - eapply Permutation_NoDup; [|exact Hnd].
    apply Permutation_map. apply sorted_longest_first_perm.
Qed.

(** The rules "ab" -> "X" and "abc" -> "Y" in both orders, with a regex rule
    between them. *)
Lemma X18_literal_order_is_irrelevant_witness :
  apply_corrections sample_re_sub
    (mkConfig [rule (lit "ab") false (lit "X"); rule (lit "z") true (lit "y");
               rule (lit "abc") false (lit "Y")] true) (lit "abcz")
  = apply_corrections sample_re_sub
      (mkConfig [rule (lit "abc") false (lit "Y"); rule (lit "ab") false (lit "X");
                 rule (lit "z") true (lit "y")] true) (lit "abcz").
Proof.
  apply X18_literal_order_is_irrelevant.
  - apply perm_swap.
  - cbn. repeat constructor; cbn [In]; intuition discriminate.
  - reflexivity.
Defined.

(** X19.  A regex rule on which [re.sub] raises [re.error] whatever the text
    is, as it does for a pattern that does not compile, is skipped: the
    correction pass gives what it gives for the rule set without that rule,
    so every other rule is applied as if the rule were not there. *)
Theorem X19_re_error_rule_is_skipped :
  forall re_sub (c : SanamLuangConfig) (text : pystr)
         (es1 es2 : list entry) (p repl : pystr),
    entries c = es1 ++ rule p true repl :: es2 ->
    (forall t, re_sub p repl t = Raise re_error) ->
    apply_corrections re_sub c text
    = apply_corrections re_sub (mkConfig (es1 ++ es2) (enabled c)) text.
Proof.
  intros re_sub c text es1 es2 p repl E Hbad.
  rewrite !apply_corrections_passes. cbn [entries]. rewrite E.
  rewrite !literal_rules_app, !regex_rules_app.
  change (rule p true repl :: es2) with ([rule p true repl] ++ es2).
  rewrite literal_rules_app, regex_rules_app.
  assert (Hl : literal_rules [rule p true repl] = []).
  { unfold literal_rules, is_literal_rule. cbn.
    destruct p; reflexivity. }
  rewrite Hl. cbn [app].
  rewrite !regex_pass_app.
  destruct (regex_pass re_sub (regex_rules es1) _) as [t1|e]; [|reflexivity].
  cbn [bind]. rewrite regex_pass_app.
  destruct p as [|x p]; [reflexivity|].
  unfold regex_rules at 1. cbn. now rewrite Hbad.
Qed.

(** The pattern "(" between the rules "a" -> "b" and "b" -> "c". *)
Lemma X19_re_error_rule_is_skipped_witness :
  apply_corrections sample_re_sub
    (mkConfig [rule (lit "a") true (lit "b"); rule (lit "(") true (lit "x");
               rule (lit "b") false (lit "c")] true) (lit "ab")
  = apply_corrections sample_re_sub
      (mkConfig ([rule (lit "a") true (lit "b")] ++ [rule (lit "b") false (lit "c")])
                true) (lit "ab").
Proof.
  apply (X19_re_error_rule_is_skipped sample_re_sub
    (mkConfig [rule (lit "a") true (lit "b"); rule (lit "(") true (lit "x");
               rule (lit "b") false (lit "c")] true) (lit "ab")
    [rule (lit "a") true (lit "b")] [rule (lit "b") false (lit "c")]
    (lit "(") (lit "x")).
  - reflexivity.
  - intros t. reflexivity.
Defined.
